(** * Insyte: a shallow embedding of the event tracker and its properties

    The development follows the TypeScript sources:
    - the date helper imported as [./utils]: [getDate];
    - the class [Insyte]: its constructor, [track], [retrieve] and
      [retrieveDays];
    - [types.d.ts]: [InsyteArgs] and [InsyteRetrieveResult].

    What the class reaches outside itself is modelled explicitly: the
    remote store behind the client imported as [./redis], the clock, the
    console, and the library functions it calls ([JSON.stringify],
    [Number], [Promise.all], [Array.prototype.sort] and date-fns'
    [format], [subDays] and [parse]).  Every method is an executable
    transformer of that world. *)

From Stdlib Require Import ZArith Lia Ascii String List Bool.
From Stdlib Require Import DecimalString DecimalZ Sorting.Sorted Permutation.
From stdpp Require Import base option gmap strings list fin_maps.

Set Warnings "-register-all".
#[local] Open Scope Z_scope.

(* ===================================================================== *)
(** ** Characters and decimal numerals *)
(* ===================================================================== *)

Module Chars.

Definition dquote    : ascii := "034"%char.
Definition backslash : ascii := "092"%char.
Definition slash     : ascii := "/"%char.

(** The character of a digit [0..9] ('0' is code 48). *)
Definition digit_char (d : Z) : ascii := ascii_of_nat (48 + Z.to_nat d).

(** The value of a decimal digit character, if it is one. *)
Definition digit_val (c : ascii) : option Z :=
  let n := Z.of_nat (nat_of_ascii c) in
  if (48 <=? n) && (n <=? 57) then Some (n - 48) else None.

Definition hex_char (d : Z) : ascii :=
  if d <? 10 then digit_char d else ascii_of_nat (87 + Z.to_nat d).

End Chars.

(** Decimal rendering of an integer, as [String(n)] renders an integral
    number and as the store renders a counter. *)
Definition Z_to_string (z : Z) : string :=
  NilZero.string_of_int (Z.to_int z).

(** Reading a canonical decimal integer: no leading zeros, no [-0], no
    blanks.  [None] when the text is not such a numeral. *)
Definition Z_of_string (s : string) : option Z :=
  match NilZero.int_of_string s with
  | Some d =>
      let z := Z.of_int d in
      if String.eqb (Z_to_string z) s then Some z else None
  | None => None
  end.

(* ===================================================================== *)
(** ** JavaScript values and [JSON.stringify] *)
(* ===================================================================== *)

(** The values an event payload is built from ([{ [key: string]: string | any }]).
    Numbers are restricted to the integers that print in plain decimal;
    an object is the list of its own enumerable properties in enumeration
    order. *)
Inductive JSValue : Type :=
| JUndefined
| JNull
| JBool   (b : bool)
| JNumber (z : Z)
| JString (s : string)
| JArray  (items : list JSValue)
| JObject (props : list (string * JSValue)).

Module JSON.

(** QuoteJSONString: escapes of one code unit. *)
Definition escape_char (c : ascii) : string :=
  let n := Z.of_nat (nat_of_ascii c) in
  if Ascii.eqb c Chars.dquote then String Chars.backslash (String Chars.dquote "")
  else if Ascii.eqb c Chars.backslash then String Chars.backslash (String Chars.backslash "")
  else if n =? 8  then String Chars.backslash "b"
  else if n =? 9  then String Chars.backslash "t"
  else if n =? 10 then String Chars.backslash "n"
  else if n =? 12 then String Chars.backslash "f"
  else if n =? 13 then String Chars.backslash "r"
  else if n <? 32 then
    String Chars.backslash
      ("u00" +:+ String (Chars.hex_char (n / 16)) (String (Chars.hex_char (n mod 16)) ""))
  else String c "".

Fixpoint escape (s : string) : string :=
  match s with
  | EmptyString => ""
  | String c s' => escape_char c +:+ escape s'
  end.

Definition quote (s : string) : string :=
  String Chars.dquote (escape s +:+ String Chars.dquote "").

Fixpoint join (sep : string) (parts : list string) : string :=
  match parts with
  | [] => ""
  | [p] => p
  | p :: ps => p +:+ sep +:+ join sep ps
  end.

(** SerializeJSONProperty: [None] stands for the result [undefined]. *)
Fixpoint serialize (v : JSValue) : option string :=
  match v with
  | JUndefined => None
  | JNull => Some "null"
  | JBool true => Some "true"
  | JBool false => Some "false"
  | JNumber z => Some (Z_to_string z)
  | JString s => Some (quote s)
  | JArray items =>
      (* an element that serializes to undefined is written null *)
      let parts := List.map (fun x => default "null" (serialize x)) items in
      Some ("[" +:+ join "," parts +:+ "]")
  | JObject props =>
      (* a property whose value serializes to undefined is left out *)
      let fix members (ps : list (string * JSValue)) : list string :=
        match ps with
        | [] => []
        | (k, x) :: ps' =>
            match serialize x with
            | Some sx => (quote k +:+ ":" +:+ sx) :: members ps'
            | None => members ps'
            end
        end in
      Some ("{" +:+ join "," (members props) +:+ "}")
  end.

(** [JSON.stringify(v)] for a value that is not [undefined] at top level;
    [track] only applies it to the object literal [{ event }]. *)
Definition stringify (v : JSValue) : string := default "undefined" (serialize v).

End JSON.


(* ===================================================================== *)
(** ** Calendar dates and the date-fns functions used by the tracker *)
(* ===================================================================== *)

(** A JavaScript [Date] seen through the local calendar.  The tracker only
    ever formats a date with the pattern dd/MM/yyyy and moves it by whole
    days, so the time of day is not represented. *)
Record Date : Type := mkDate { year : Z; month : Z; day : Z }.

Module DateFns.

Definition is_leap_year (y : Z) : bool :=
  (y mod 4 =? 0) && (negb (y mod 100 =? 0) || (y mod 400 =? 0)).

Definition days_in_month (y m : Z) : Z :=
  if m =? 2 then (if is_leap_year y then 29 else 28)
  else if (m =? 4) || (m =? 6) || (m =? 9) || (m =? 11) then 30
  else 31.

(** The dates of the proleptic Gregorian calendar. *)
Definition valid_date (d : Date) : Prop :=
  1 <= month d <= 12 /\ 1 <= day d <= days_in_month (year d) (month d).

Definition prev_day (d : Date) : Date :=
  if 1 <? day d then mkDate (year d) (month d) (day d - 1)
  else if 1 <? month d then
    mkDate (year d) (month d - 1) (days_in_month (year d) (month d - 1))
  else mkDate (year d - 1) 12 31.

Definition next_day (d : Date) : Date :=
  if day d <? days_in_month (year d) (month d) then
    mkDate (year d) (month d) (day d + 1)
  else if month d <? 12 then mkDate (year d) (month d + 1) 1
  else mkDate (year d + 1) 1 1.

(** [addDays]: [date.setDate(date.getDate() + amount)], the calendar day
    moved [amount] days forward (backward when negative). *)
Definition addDays (d : Date) (amount : Z) : Date :=
  if 0 <=? amount then Nat.iter (Z.to_nat amount) next_day d
  else Nat.iter (Z.to_nat (- amount)) prev_day d.

(** [subDays(date, amount) = addDays(date, -amount)]. *)
Definition subDays (d : Date) (amount : Z) : Date := addDays d (- amount).

Fixpoint padStart (s : string) (len : nat) (fill : ascii) : string :=
  match len with
  | O => s
  | S len' =>
      if (String.length s <=? len')%nat then String fill (padStart s len' fill)
      else s
  end.

(** [addLeadingZeros(number, targetLength)]. *)
Definition addLeadingZeros (n : Z) (targetLength : nat) : string :=
  (if n <? 0 then "-" else "") +:+
  padStart (Z_to_string (Z.abs n)) targetLength "0"%char.

(** [format(date, 'dd/MM/yyyy')]: day and month on two digits, the year
    on four; the year token prints [1 - y] for a year [y <= 0]. *)
Definition format (d : Date) : string :=
  addLeadingZeros (day d) 2 +:+ "/" +:+
  addLeadingZeros (month d) 2 +:+ "/" +:+
  addLeadingZeros (if 0 <? year d then year d else 1 - year d) 4.

(** [parseNDigits(n, s)]: the regular expression [^\d{1,n}], read as an
    integer, with the rest of the input. *)
Fixpoint take_digits (n : nat) (acc : Z) (s : string) : Z * string :=
  match n, s with
  | S n', String c s' =>
      match Chars.digit_val c with
      | Some v => take_digits n' (10 * acc + v) s'
      | None => (acc, s)
      end
  | _, _ => (acc, s)
  end.

Definition parseNDigits (n : nat) (s : string) : option (Z * string) :=
  match s with
  | String c _ =>
      match Chars.digit_val c with
      | Some _ => Some (take_digits n 0 s)
      | None => None
      end
  | EmptyString => None
  end.

(** A literal character of the pattern. *)
Definition expect (c : ascii) (s : string) : option string :=
  match s with
  | String c' s' => if Ascii.eqb c c' then Some s' else None
  | EmptyString => None
  end.

(** [parse(s, 'dd/MM/yyyy', referenceDate)].  [None] is the Invalid Date.
    Every calendar field is given by the pattern and the time is reset
    to midnight, so the reference date does not show in the result. *)
Definition parse (s : string) (referenceDate : Date) : option Date :=
  '(d, s1) ← parseNDigits 2 s;
  s2 ← expect Chars.slash s1;
  '(m, s3) ← parseNDigits 2 s2;
  s4 ← expect Chars.slash s3;
  '(y, s5) ← parseNDigits 4 s4;
  if String.eqb s5 "" && (0 <? y) && (1 <=? m) && (m <=? 12)
     && (1 <=? d) && (d <=? days_in_month y m)
  then Some (mkDate y m d) else None.

(** Order of two dates by their time values. *)
Definition Date_ltb (a b : Date) : bool :=
  (year a <? year b) ||
  ((year a =? year b) &&
   ((month a <? month b) || ((month a =? month b) && (day a <? day b)))).

(** The JavaScript comparison [a > b] of two parsed dates: the time
    value of an Invalid Date is NaN, and every comparison with NaN is
    false. *)
Definition gt (a b : option Date) : bool :=
  match a, b with
  | Some x, Some y => Date_ltb y x
  | _, _ => false
  end.

End DateFns.

(* ===================================================================== *)
(** ** Errors, promises and the remote store *)
(* ===================================================================== *)

(** A thrown JavaScript value.  Two errors are the same error when they
    are equal: the methods below never build or change one, they only
    pass on what the store client raised. *)
Record JSError : Type := mkError { err_name : string; err_message : string }.

(** The outcome of an asynchronous computation: a promise fulfilled with a
    value or rejected with an error. *)
Inductive Result (A : Type) : Type :=
| Ok (a : A)
| Throw (e : JSError).
Arguments Ok {A} a.
Arguments Throw {A} e.

Module Redis.

(** The three commands the tracker sends. *)
Inductive Command : Type :=
| EXPIRE  (key : string) (seconds : Z)
| HINCRBY (key field : string) (increment : Z)
| HGETALL (key : string).

(** Modelled from the spec: the store is an external service and no file
    of the repository implements it.  It holds, by key, hashes that map
    field strings to value strings, and a time-to-live in seconds for the
    keys that were given one. *)
Record Store : Type := mkStore {
  hashes : gmap string (gmap string string);
  ttls   : gmap string Z
}.

Definition empty : Store := mkStore ∅ ∅.

Definition not_an_integer : JSError :=
  mkError "UpstashError" "ERR hash value is not an integer".

(** Modelled from the spec: setting or refreshing a time-to-live in
    seconds on a key, which on a key that does not exist yet is a no-op.
    [EXPIRE key seconds] replies 1 when the time-to-live was set and 0
    when the key does not exist.  Where the spec is silent the model goes
    by Redis: a time-to-live that is not positive has run out at once, so
    the key is removed. *)
Definition expire (key : string) (seconds : Z) (s : Store) : Z * Store :=
  match hashes s !! key with
  | None => (0, s)
  | Some _ =>
      if seconds <=? 0
      then (1, mkStore (delete key (hashes s)) (delete key (ttls s)))
      else (1, mkStore (hashes s) (<[key := seconds]> (ttls s)))
  end.

(** Modelled from the spec: the atomic increment of a hash field by an
    integer delta, which creates the key and the field as needed.
    [HINCRBY key field increment] replies the value after the increment,
    and fails on a field that does not hold an integer. *)
Definition hincrby (key field : string) (increment : Z) (s : Store)
  : Result Z * Store :=
  let h := default ∅ (hashes s !! key) in
  let put (n : Z) :=
    (Ok n, mkStore (<[key := <[field := Z_to_string n]> h]> (hashes s)) (ttls s)) in
  match h !! field with
  | None => put increment
  | Some v =>
      match Z_of_string v with
      | Some n => put (n + increment)
      | None => (Throw not_an_integer, s)
      end
  end.

(** Modelled from the spec: the retrieval of an entire hash by key, in
    the store's own order of enumeration.  [HGETALL key] gives the fields
    and values of the hash, [None] (the client's [null]) when there are
    none. *)
Definition hgetall (key : string) (s : Store) : option (list (string * string)) :=
  match hashes s !! key with
  | Some h => if decide (h = ∅) then None else Some (map_to_list h)
  | None => None
  end.

End Redis.

(* ===================================================================== *)
(** ** The world a method runs in *)
(* ===================================================================== *)

Inductive Stream : Type := Stdout | Stderr.

Record LogLine : Type := mkLog { stream : Stream; text : string; logged : JSError }.

(** Everything outside the class that a call reads or changes. *)
Record World : Type := mkWorld {
  (** the remote store *)
  store : Redis.Store;
  (** the commands sent to the store so far, oldest first *)
  sent : list Redis.Command;
  (** whether the request numbered [k] (counting from 0) fails at the
      client (connection, authentication), and with which error *)
  faults : nat -> option JSError;
  (** the successive values of [new Date()], and how many were taken *)
  clock : nat -> Date;
  clock_reads : nat;
  (** the lines written by [console.log] and [console.error] *)
  console : list LogLine;
  (** among [k] rejected promises awaited together, which one was
      rejected first *)
  first_rejected : nat -> nat
}.

(** An asynchronous computation. *)
Definition Eff (A : Type) : Type := World -> Result A * World.

Definition ret {A} (a : A) : Eff A := fun w => (Ok a, w).

Definition throw {A} (e : JSError) : Eff A := fun w => (Throw e, w).

Definition bind {A B} (m : Eff A) (k : A -> Eff B) : Eff B :=
  fun w =>
    match m w with
    | (Ok a, w') => k a w'
    | (Throw e, w') => (Throw e, w')
    end.

Notation "'let*' x ':=' m 'in' k" := (bind m (fun x => k))
  (at level 10, x name, m at level 100, k at level 200).
Notation "m ';;' k" := (bind m (fun _ => k))
  (at level 100, k at level 200, right associativity).

(** [try { body } catch (error) { handler }]. *)
Definition try_catch {A} (body : Eff A) (handler : JSError -> Eff A) : Eff A :=
  fun w =>
    match body w with
    | (Ok a, w') => (Ok a, w')
    | (Throw e, w') => handler e w'
    end.

Definition with_store (s : Redis.Store) (w : World) : World :=
  mkWorld s (sent w) (faults w) (clock w) (clock_reads w) (console w) (first_rejected w).

Definition with_sent (c : Redis.Command) (w : World) : World :=
  mkWorld (store w) (sent w ++ [c]) (faults w) (clock w) (clock_reads w)
          (console w) (first_rejected w).

Definition with_line (l : LogLine) (w : World) : World :=
  mkWorld (store w) (sent w) (faults w) (clock w) (clock_reads w)
          (console w ++ [l]) (first_rejected w).

Definition tick (w : World) : World :=
  mkWorld (store w) (sent w) (faults w) (clock w) (S (clock_reads w))
          (console w) (first_rejected w).

(** [new Date()]. *)
Definition new_Date : Eff Date :=
  fun w => (Ok (clock w (clock_reads w)), tick w).

Definition console_error (msg : string) (e : JSError) : Eff unit :=
  fun w => (Ok tt, with_line (mkLog Stderr msg e) w).

Definition console_log (msg : string) (e : JSError) : Eff unit :=
  fun w => (Ok tt, with_line (mkLog Stdout msg e) w).

(** One request to the store: the command is sent; the client either
    fails, leaving the store as it was, or the store executes it. *)
Definition request {A} (c : Redis.Command)
    (exec : Redis.Store -> Result A * Redis.Store) : Eff A :=
  fun w =>
    let w1 := with_sent c w in
    match faults w (length (sent w)) with
    | Some e => (Throw e, w1)
    | None => let '(r, s') := exec (store w) in (r, with_store s' w1)
    end.

(** The client object imported from [./redis]. *)
Module redis.

Definition expire (key : string) (seconds : Z) : Eff Z :=
  request (Redis.EXPIRE key seconds)
          (fun s => let '(n, s') := Redis.expire key seconds s in (Ok n, s')).

Definition hincrby (key field : string) (increment : Z) : Eff Z :=
  request (Redis.HINCRBY key field increment) (Redis.hincrby key field increment).

Definition hgetall (key : string) : Eff (option (list (string * string))) :=
  request (Redis.HGETALL key) (fun s => (Ok (Redis.hgetall key s), s)).

End redis.

(* ===================================================================== *)
(** ** The date helper *)
(* ===================================================================== *)

(** [getDate(sub: number = 0)]. *)
Definition getDate (sub : option Z) : Eff string :=
  let sub := default 0 sub in
  let* now := new_Date in
  let dateXDaysAgo := DateFns.subDays now sub in
  ret (DateFns.format dateXDaysAgo).

(* ===================================================================== *)
(** ** Promises, [Number] and [Array.prototype.sort] *)
(* ===================================================================== *)

(** Calling an async function without awaiting it: the call runs, its
    outcome is held by the promise and nothing is thrown at the caller.
    The model runs the callee to its end at the call; the tracker's
    concurrent calls only read the store, so what each of them obtains
    does not depend on how their requests interleave. *)
Definition start {A} (m : Eff A) : Eff (Result A) :=
  fun w => let '(r, w') := m w in (Ok r, w').

Fixpoint rejections {A} (ps : list (Result A)) : list JSError :=
  match ps with
  | [] => []
  | Ok _ :: ps' => rejections ps'
  | Throw e :: ps' => e :: rejections ps'
  end.

Fixpoint fulfilled {A} (ps : list (Result A)) : list A :=
  match ps with
  | [] => []
  | Ok a :: ps' => a :: fulfilled ps'
  | Throw _ :: ps' => fulfilled ps'
  end.

(** [await Promise.all(promises)]: the values in the order of the
    promises when all are fulfilled; otherwise the error of the promise
    that was rejected first. *)
Definition Promise_all {A} (ps : list (Result A)) : Eff (list A) :=
  fun w =>
    match rejections ps with
    | [] => (Ok (fulfilled ps), w)
    | e :: es =>
        let k := length (e :: es) in
        (Throw (nth (first_rejected w k mod k)%nat (e :: es) e), w)
    end.

(** A JavaScript number, that is a double.  [Num z] is the finite double
    whose value is the integer [z] (the positive zero for 0), [Dyadic m e]
    the finite double of value [m * 2 ^ e] that is no integer, with its
    mantissa [m] as rounding leaves it (on 53 bits, fewer for a subnormal
    number). *)
Inductive JSNumber : Type :=
| Num (z : Z)
| NegZero
| Dyadic (m e : Z)
| Infinity (negative : bool)
| NaN.

(** Rounding to the nearest double, ties to the even mantissa. *)
Module Double.

(** [q * 2 ^ e <= p], for an exponent of either sign. *)
Definition scaled_le (q e p : Z) : bool :=
  if 0 <=? e then q * 2 ^ e <=? p else q <=? p * 2 ^ (- e).

(** The exponent [e] with [2 ^ e <= p / q < 2 ^ (e + 1)], for positive [p]
    and [q]. *)
Definition log2_ratio (p q : Z) : Z :=
  let e := Z.log2 p - Z.log2 q in
  if scaled_le q e p then e else e - 1.

(** The mantissa [n] and the exponent [u] of the double nearest to
    [p / q], of value [n * 2 ^ u], for positive [p] and [q]: the unit in
    the last place is [2 ^ u], not below the smallest subnormal number. *)
Definition round_ratio (p q : Z) : Z * Z :=
  let e := log2_ratio p q in
  let u := Z.max (e - 52) (-1074) in
  let num := if 0 <=? u then p else p * 2 ^ (- u) in
  let den := if 0 <=? u then q * 2 ^ u else q in
  let n := num / den in
  let r := num mod den in
  let n := if (den <? 2 * r) || ((den =? 2 * r) && Z.odd n) then n + 1 else n in
  if n =? 2 ^ 53 then (2 ^ 52, u + 1) else (n, u).

(** The double nearest to [p / q], or to its opposite, for [0 <= p] and
    [0 < q]; beyond the largest double it is an infinity. *)
Definition of_ratio (negative : bool) (p q : Z) : JSNumber :=
  let zero := if negative then NegZero else Num 0 in
  if p =? 0 then zero
  else
    let '(n, u) := round_ratio p q in
    let s := if negative then -1 else 1 in
    if n =? 0 then zero
    else if 971 <? u then Infinity negative
    else if 0 <=? u then Num (s * (n * 2 ^ u))
    else if n mod 2 ^ (- u) =? 0 then Num (s * (n / 2 ^ (- u)))
    else Dyadic (s * n) u.

(** The double nearest to an integer. *)
Definition of_Z (n : Z) : JSNumber := of_ratio (n <? 0) (Z.abs n) 1.

End Double.

(** The reading of a text as a number, StringToNumber.  A character
    stands for a code unit below 256. *)
Module StringToNumber.

Definition is_space (c : ascii) : bool :=
  let n := Z.of_nat (nat_of_ascii c) in
  ((9 <=? n) && (n <=? 13)) || (n =? 32) || (n =? 160).

Fixpoint trim_start (s : string) : string :=
  match s with
  | String c s' => if is_space c then trim_start s' else s
  | EmptyString => EmptyString
  end.

Fixpoint trim_end (s : string) : string :=
  match s with
  | String c s' =>
      match trim_end s' with
      | EmptyString => if is_space c then EmptyString else String c EmptyString
      | t => String c t
      end
  | EmptyString => EmptyString
  end.

(** The longest run of decimal digits at the start, and what follows it. *)
Fixpoint span_digits (s : string) : string * string :=
  match s with
  | String c s' =>
      match Chars.digit_val c with
      | Some _ => let '(ds, rest) := span_digits s' in (String c ds, rest)
      | None => (EmptyString, s)
      end
  | EmptyString => (EmptyString, EmptyString)
  end.

(** The value of a run of decimal digits. *)
Definition decimal_value (ds : string) : Z :=
  match NilEmpty.uint_of_string ds with
  | Some d => Z.of_uint d
  | None => 0
  end.

Definition read_sign (s : string) : bool * string :=
  match s with
  | String c s' =>
      if Ascii.eqb c "-" then (true, s')
      else if Ascii.eqb c "+" then (false, s')
      else (false, s)
  | EmptyString => (false, EmptyString)
  end.

(** The exponent part that ends a decimal literal, 0 when there is none. *)
Definition read_exponent (s : string) : option Z :=
  match s with
  | EmptyString => Some 0
  | String c s' =>
      if Ascii.eqb c "e" || Ascii.eqb c "E" then
        let '(negative, s2) := read_sign s' in
        let '(ds, rest) := span_digits s2 in
        if negb (String.eqb ds "") && String.eqb rest ""
        then Some (if negative then - decimal_value ds else decimal_value ds)
        else None
      else None
  end.

Definition StrDecimalLiteral (s : string) : JSNumber :=
  let '(negative, s1) := read_sign s in
  if String.eqb s1 "Infinity" then Infinity negative
  else
    let '(ip, r1) := span_digits s1 in
    let '(fp, r2) :=
      match r1 with
      | String c r => if Ascii.eqb c "." then span_digits r else (EmptyString, r1)
      | EmptyString => (EmptyString, r1)
      end in
    if String.eqb ip "" && String.eqb fp "" then NaN
    else
      match read_exponent r2 with
      | None => NaN
      | Some ex =>
          let m := decimal_value (ip +:+ fp) in
          let k := ex - Z.of_nat (String.length fp) in
          if 0 <=? k then Double.of_ratio negative (m * 10 ^ k) 1
          else Double.of_ratio negative m (10 ^ (- k))
      end.

(** The value of a digit in a base up to 16. *)
Definition digit_in (base : Z) (c : ascii) : option Z :=
  let n := Z.of_nat (nat_of_ascii c) in
  let v := if (48 <=? n) && (n <=? 57) then n - 48
           else if (97 <=? n) && (n <=? 102) then n - 87
           else if (65 <=? n) && (n <=? 70) then n - 55
           else 16 in
  if v <? base then Some v else None.

Fixpoint read_radix (base acc : Z) (s : string) : option Z :=
  match s with
  | EmptyString => Some acc
  | String c s' =>
      match digit_in base c with
      | Some v => read_radix base (acc * base + v) s'
      | None => None
      end
  end.

(** A literal that starts with 0x, 0o or 0b, in either case; [None] when
    the text does not start so. *)
Definition NonDecimalIntegerLiteral (s : string) : option JSNumber :=
  match s with
  | String c0 (String c1 digits) =>
      let base :=
        if Ascii.eqb c1 "x" || Ascii.eqb c1 "X" then Some 16
        else if Ascii.eqb c1 "o" || Ascii.eqb c1 "O" then Some 8
        else if Ascii.eqb c1 "b" || Ascii.eqb c1 "B" then Some 2
        else None in
      match base with
      | Some b =>
          if Ascii.eqb c0 "0" then
            Some (match digits, read_radix b 0 digits with
                  | String _ _, Some v => Double.of_ratio false v 1
                  | _, _ => NaN
                  end)
          else None
      | None => None
      end
  | _ => None
  end.

End StringToNumber.

(** [Number(value)] on a string.  The text is trimmed of white space;
    empty it is 0; it is then read as a binary, octal or hexadecimal
    integer literal, or as a decimal literal with an optional sign,
    fraction and exponent, or as a signed Infinity, and rounded to the
    nearest double, ties to the even mantissa, whatever the number of
    digits (as V8 does); any other text is NaN. *)
Definition Number (value : string) : JSNumber :=
  let text := StringToNumber.trim_end (StringToNumber.trim_start value) in
  if String.eqb text "" then Num 0
  else
    match StringToNumber.NonDecimalIntegerLiteral text with
    | Some n => n
    | None => StringToNumber.StrDecimalLiteral text
    end.

(** [array.sort(compareFn)] as a stable insertion sort: an element moves
    past those [compareFn] puts before it ([compareFn(x, y) > 0]). *)
Section Sort.
Context {A : Type} (compareFn : A -> A -> Z).

Fixpoint sort_insert (x : A) (l : list A) : list A :=
  match l with
  | [] => [x]
  | y :: l' => if 0 <? compareFn x y then y :: sort_insert x l' else x :: l
  end.

Definition Array_sort (l : list A) : list A := foldr sort_insert [] l.
End Sort.

(* ===================================================================== *)
(** ** The class Insyte and its types *)
(* ===================================================================== *)

(** [InsyteArgs['opts']]. *)
Record InsyteOpts : Type := mkOpts { opts_retention : Z }.

(** [InsyteRetrieveResult]: each element of [event] is an object with one
    property. *)
Record InsyteRetrieveResult : Type := mkResult {
  date  : string;
  event : list (gmap string JSNumber)
}.

(** An instance of the class: its private field. *)
Record Insyte : Type := mkInsyte { retention : Z }.

(** Truthiness of a number. *)
Definition truthy (n : Z) : bool := negb (n =? 0).

(** [new Insyte(opts?)]: the field initialiser, then the constructor body
    [if (opts?.retention) this.retention = opts.retention]. *)
Definition new_Insyte (opts : option InsyteOpts) : Insyte :=
  let this := mkInsyte (60 * 60 * 24 * 7) in
  match opts with
  | Some o => if truthy (opts_retention o) then mkInsyte (opts_retention o) else this
  | None => this
  end.

Definition track (this : Insyte) (name : string) (event : JSValue) (persist : bool)
  : Eff unit :=
  try_catch
    (let key := "insyte::" +:+ name in
     let field := JSON.stringify (JObject [("event", event)]) in
     let* key :=
       if negb persist then
         let* today := getDate None in
         let key := key +:+ "::" +:+ today in
         redis.expire key (retention this);;
         ret key
       else ret key in
     redis.hincrby key field 1;;
     ret tt)
    (fun error =>
       console_error "Failed to track event in Insyte:" error;;
       throw error).

Definition retrieve (this : Insyte) (name : string) (date : string)
  : Eff InsyteRetrieveResult :=
  try_catch
    (let key := "insyte::" +:+ name +:+ "::" +:+ date in
     let* data := redis.hgetall key in
     ret (mkResult date
            (List.map (fun '(key, value) => {[ key := Number value ]})
                      (default [] data))))
    (fun error =>
       console_error "Failed to retrieve data from Insyte:" error;;
       throw error).

(** The comparison function handed to [sort] in [retrieveDays]. *)
Definition by_date (now : Date) (a b : InsyteRetrieveResult) : Z :=
  if DateFns.gt (DateFns.parse (date a) now) (DateFns.parse (date b) now)
  then 1 else -1.

(** The [for] loop of [retrieveDays]; [fuel] bounds the iterations. *)
Fixpoint retrieveDays_loop (this : Insyte) (name : string) (nDays : Z)
    (fuel : nat) (i : Z) (promises : list (Result InsyteRetrieveResult))
  : Eff (list (Result InsyteRetrieveResult)) :=
  match fuel with
  | O => ret promises
  | S fuel' =>
      if i <? nDays then
        let* date := getDate (Some i) in
        let* promise := start (retrieve this name date) in
        retrieveDays_loop this name nDays fuel' (i + 1) (promises ++ [promise])
      else ret promises
  end.

(** [retrieveDays({ name, nDays = 1 })], for an integral [nDays].  The
    loop runs while [i < nDays] from [i = 0], so [Z.to_nat nDays]
    iterations exhaust it.  The comparison function makes a fresh
    reference date at each call; [parse] does not use it, and one reading
    of the clock stands for them. *)
Definition retrieveDays (this : Insyte) (name : string) (nDays : option Z)
  : Eff (list InsyteRetrieveResult) :=
  let nDays := default 1 nDays in
  let* promises := retrieveDays_loop this name nDays (Z.to_nat nDays) 0 [] in
  try_catch
    (let* resolvedData := Promise_all promises in
     let* now := new_Date in
     let data := Array_sort (by_date now) resolvedData in
     ret data)
    (fun error =>
       console_log "Failed to retrieve Days from Insyte:" error;;
       throw error).

(* ===================================================================== *)
(** ** Vocabulary of the statements *)
(* ===================================================================== *)

(** The key of a persisted record. *)
Definition persisted_key (name : string) : string := "insyte::" +:+ name.

(** The key of an ephemeral record, as [track] builds it in two steps. *)
Definition ephemeral_key (name date : string) : string :=
  ("insyte::" +:+ name) +:+ "::" +:+ date.

(** The hash field of an event: [JSON.stringify({ event })]. *)
Definition event_field (event : JSValue) : string :=
  JSON.stringify (JObject [("event", event)]).

(** The date the next [new Date()] gives. *)
Definition today (w : World) : Date := clock w (clock_reads w).

(** The count a field stands at: 0 when the key or the field is absent,
    nothing when the field does not hold an integer. *)
Definition count (key field : string) (s : Redis.Store) : option Z :=
  match default ∅ (Redis.hashes s !! key) !! field with
  | None => Some 0
  | Some v => Z_of_string v
  end.

(** The fields of the hash at a key. *)
Definition fields (key : string) (s : Redis.Store) : gset string :=
  dom (default ∅ (Redis.hashes s !! key)).

(** [n] calls of [track] in a row, each awaited. *)
Fixpoint track_times (n : nat) (this : Insyte) (name : string) (event : JSValue)
    (persist : bool) : Eff unit :=
  match n with
  | O => ret tt
  | S n' => track this name event persist;; track_times n' this name event persist
  end.

Definition is_EXPIRE (c : Redis.Command) : bool :=
  match c with Redis.EXPIRE _ _ => true | _ => false end.

Definition track_failed (e : JSError) : LogLine :=
  mkLog Stderr "Failed to track event in Insyte:" e.

Definition retrieve_failed (e : JSError) : LogLine :=
  mkLog Stderr "Failed to retrieve data from Insyte:" e.

Definition retrieveDays_failed (e : JSError) : LogLine :=
  mkLog Stdout "Failed to retrieve Days from Insyte:" e.

(** What [retrieve] makes of the reply to [HGETALL]. *)
Definition entries (data : option (list (string * string)))
  : list (gmap string JSNumber) :=
  List.map (fun '(key, value) => {[ key := Number value ]}) (default [] data).

(** The date asked for by iteration [k] of the loop of [retrieveDays],
    when the loop enters in world [w] with its counter at [i]. *)
Definition day_asked (i : Z) (w : World) (k : nat) : string :=
  DateFns.format
    (DateFns.subDays (clock w (clock_reads w + k)%nat) (i + Z.of_nat k)).

Definition day_key (name : string) (i : Z) (w : World) (k : nat) : string :=
  "insyte::" +:+ name +:+ "::" +:+ day_asked i w k.

(** The outcome of the [retrieve] started by that iteration. *)
Definition day_outcome (name : string) (i : Z) (w : World) (k : nat)
  : Result InsyteRetrieveResult :=
  match faults w (length (sent w) + k)%nat with
  | Some e => Throw e
  | None =>
      Ok (mkResult (day_asked i w k)
                   (entries (Redis.hgetall (day_key name i w k) (store w))))
  end.

(** The line that [retrieve] writes when it fails. *)
Definition day_line (w : World) (k : nat) : list LogLine :=
  match faults w (length (sent w) + k)%nat with
  | Some e => [retrieve_failed e]
  | None => []
  end.

(** The world after [n] iterations of the loop. *)
Definition after_days (name : string) (i : Z) (w : World) (n : nat) : World :=
  mkWorld (store w)
          (sent w ++ List.map (fun k => Redis.HGETALL (day_key name i w k)) (seq 0 n))
          (faults w) (clock w) (clock_reads w + n)%nat
          (console w ++ flat_map (day_line w) (seq 0 n))
          (first_rejected w).

(** A world where nothing was sent or logged yet, the store is empty, no
    request fails and the clock stays at one date. *)
Definition quiet_world (d : Date) : World :=
  mkWorld Redis.empty [] (fun _ => None) (fun _ => d) 0 [] (fun _ => 0%nat).

(** [a] is an earlier day than [b]. *)
Definition Date_lt (a b : Date) : Prop :=
  year a < year b \/
  (year a = year b /\
   (month a < month b \/ (month a = month b /\ day a < day b))).

(** The text [s] reads, with the pattern dd/MM/yyyy, as an earlier day
    than the text [t]. *)
Definition reads_earlier (s t : string) : Prop :=
  exists a b,
    DateFns.parse s (mkDate 1970 1 1) = Some a /\
    DateFns.parse t (mkDate 1970 1 1) = Some b /\ Date_lt a b.

(** The decimal digits of a number below 100, and of one below 10000. *)
Definition two_digits (n : Z) : string :=
  String (Chars.digit_char (n / 10)) (String (Chars.digit_char (n mod 10)) "").

Definition four_digits (n : Z) : string :=
  String (Chars.digit_char (n / 1000))
    (String (Chars.digit_char (n / 100 mod 10))
       (String (Chars.digit_char (n / 10 mod 10))
          (String (Chars.digit_char (n mod 10)) ""))).

(** The result of one day when its request is answered. *)
Definition day_result (name : string) (t : Date) (s : Redis.Store) (k : nat)
  : InsyteRetrieveResult :=
  let d := DateFns.format (Nat.iter k DateFns.prev_day t) in
  mkResult d (entries (Redis.hgetall ("insyte::" +:+ name +:+ "::" +:+ d) s)).

(** The event and the day of the worked example: a view of the page "/"
    on the first of January 2024. *)
Definition page_view : JSValue := JObject [("page", JString "/")].

Definition new_year_2024 : Date := mkDate 2024 1 1.

(** The world after one ephemeral view was tracked on that day. *)
Definition one_view_tracked : World :=
  snd (track (new_Insyte None) "page-view" page_view false (quiet_world new_year_2024)).

(** A world in which the second request fails. *)
Definition timeout_error : JSError := mkError "Error" "fetch failed".

Definition second_request_fails : World :=
  mkWorld Redis.empty [] (fun k => if (k =? 1)%nat then Some timeout_error else None)
          (fun _ => new_year_2024) 0 [] (fun _ => 0%nat).

(** A world in which the first request fails. *)
Definition first_request_fails : World :=
  mkWorld Redis.empty [] (fun k => if (k =? 0)%nat then Some timeout_error else None)
          (fun _ => new_year_2024) 0 [] (fun _ => 0%nat).

(** A world whose store holds, under the persisted key of "page-view", a
    value that is not a count in the field of the example event. *)
Definition garbled_count : World :=
  mkWorld (Redis.mkStore {[ "insyte::page-view" := {[ event_field page_view := "many" ]} ]} ∅)
          [] (fun _ => None) (fun _ => new_year_2024) 0 [] (fun _ => 0%nat).

(** A world in which the clock passes from the last day of 2023 to the
    first of 2024 after its first reading. *)
Definition midnight_passes : World :=
  mkWorld Redis.empty [] (fun _ => None)
          (fun k => if (k =? 0)%nat then mkDate 2023 12 31 else new_year_2024)
          0 [] (fun _ => 0%nat).

(** The texts of the members of an object in its JSON text: a property
    whose value has none is left out. *)
Definition object_members (props : list (string * JSValue)) : list string :=
  flat_map (fun '(k, x) =>
              match JSON.serialize x with
              | Some sx => [JSON.quote k +:+ ":" +:+ sx]
              | None => []
              end) props.

(** Texts made of decimal digits only. *)
Fixpoint digits_only (s : string) : bool :=
  match s with
  | String c s' =>
      match Chars.digit_val c with Some _ => digits_only s' | None => false end
  | EmptyString => true
  end.

(* ===================================================================== *)
(** ** Numerals and strings *)
(* ===================================================================== *)

Lemma append_assoc (a b c : string) : (a +:+ b) +:+ c = a +:+ b +:+ c.
Proof.
  induction a as [|x a IH]; [reflexivity|].
  change (String x ((a +:+ b) +:+ c) = String x (a +:+ b +:+ c)).
  by rewrite IH.
Qed.

Lemma ephemeral_key_retrieve name date :
  ephemeral_key name date = "insyte::" +:+ name +:+ "::" +:+ date.
Proof. unfold ephemeral_key. apply append_assoc. Qed.

Lemma Z_to_int_proper (z : Z) :
  Z.to_int z <> Decimal.Pos Decimal.Nil /\ Z.to_int z <> Decimal.Neg Decimal.Nil.
Proof.
  destruct z as [|p|p]; simpl; split; try discriminate;
    intros [= H]; by apply (DecimalPos.Unsigned.to_uint_nonnil p).
Qed.

Lemma Z_of_to_string (z : Z) : Z_of_string (Z_to_string z) = Some z.
Proof.
  unfold Z_of_string, Z_to_string.
  destruct (Z_to_int_proper z) as [Hp Hn].
  rewrite (NilZero.isi _ Hp Hn), DecimalZ.of_to.
  by rewrite String.eqb_refl.
Qed.

(** *** What [Number] makes of a counter *)

Section NumberFacts.
Import StringToNumber.

Lemma digit_not_space c v : Chars.digit_val c = Some v -> is_space c = false.
Proof.
  unfold Chars.digit_val, is_space.
  destruct ((48 <=? Z.of_nat (nat_of_ascii c)) && (Z.of_nat (nat_of_ascii c) <=? 57))
    eqn:E; [|discriminate].
  intros _. apply andb_true_iff in E as [E1 E2].
  apply Z.leb_le in E1. apply Z.leb_le in E2.
  repeat (apply orb_false_iff; split).
  - apply andb_false_iff. right. apply Z.leb_gt. lia.
  - apply Z.eqb_neq. lia.
  - apply Z.eqb_neq. lia.
Qed.

Lemma digit_is_no_sign c v :
  Chars.digit_val c = Some v ->
  Ascii.eqb c "-" = false /\ Ascii.eqb c "+" = false /\
  Ascii.eqb c "x" = false /\ Ascii.eqb c "X" = false /\
  Ascii.eqb c "o" = false /\ Ascii.eqb c "O" = false /\
  Ascii.eqb c "b" = false /\ Ascii.eqb c "B" = false /\
  Ascii.eqb c "I" = false.
Proof.
  intros H.
  repeat split; apply Ascii.eqb_neq; intros ->; vm_compute in H; discriminate.
Qed.

Lemma string_of_uint_digits (d : Decimal.uint) :
  digits_only (NilEmpty.string_of_uint d) = true.
Proof. induction d; simpl; try done. Qed.

Lemma span_digits_all s : digits_only s = true -> span_digits s = (s, "").
Proof.
  induction s as [|c s IH]; [done|]. simpl.
  destruct (Chars.digit_val c); [|discriminate].
  intros H. by rewrite (IH H).
Qed.

Lemma trim_end_digits s : digits_only s = true -> trim_end s = s.
Proof.
  induction s as [|c s IH]; [done|]. simpl.
  destruct (Chars.digit_val c) as [v|] eqn:Hc; [|discriminate].
  intros H. rewrite (IH H). destruct s; [|done].
  by rewrite (digit_not_space c v Hc).
Qed.

Lemma trim_end_cons c s : trim_end s = s -> s <> "" -> trim_end (String c s) = String c s.
Proof.
  intros H Hne. change (trim_end (String c s))
    with (match trim_end s with
          | EmptyString => if is_space c then EmptyString else String c EmptyString
          | t => String c t
          end).
  rewrite H. by destruct s.
Qed.

Lemma NonDecimal_digits s :
  digits_only s = true -> NonDecimalIntegerLiteral s = None.
Proof.
  destruct s as [|c0 [|c1 s]]; try done. simpl.
  destruct (Chars.digit_val c0); [|discriminate].
  destruct (Chars.digit_val c1) as [v|] eqn:H1; [|discriminate].
  intros _. destruct (digit_is_no_sign c1 v H1) as (_ & _ & -> & -> & -> & -> & -> & -> & _).
  reflexivity.
Qed.


Lemma append_empty_r (s : string) : s +:+ "" = s.
Proof.
  induction s as [|c s IH]; [reflexivity|].
  change (String c (s +:+ "") = String c s). by rewrite IH.
Qed.

(** A decimal literal that is a sign followed by digits only. *)
Lemma StrDecimalLiteral_digits s negative ds :
  read_sign s = (negative, ds) -> digits_only ds = true -> ds <> "" ->
  StrDecimalLiteral s = Double.of_ratio negative (decimal_value ds) 1.
Proof.
  intros Hsign Hd Hne. unfold StrDecimalLiteral. rewrite Hsign.
  destruct ds as [|c s']; [done|].
  assert (Hc : exists v, Chars.digit_val c = Some v).
  { simpl in Hd. destruct (Chars.digit_val c); [eauto|discriminate]. }
  destruct Hc as [v Hc].
  destruct (digit_is_no_sign c v Hc) as (_ & _ & _ & _ & _ & _ & _ & _ & HI).
  assert (HInf : String.eqb (String c s') "Infinity" = false).
  { simpl. by rewrite HI. }
  rewrite HInf, (span_digits_all _ Hd).
  change (String.eqb (String c s') "") with false.
  cbn [andb read_exponent String.length Z.of_nat].
  change (0 - 0) with 0. change (0 <=? 0) with true. cbv iota.
  by rewrite append_empty_r, Z.pow_0_r, Z.mul_1_r.
Qed.

Lemma decimal_value_to_uint (p : positive) :
  decimal_value (NilEmpty.string_of_uint (Pos.to_uint p)) = Z.pos p.
Proof.
  unfold decimal_value. rewrite NilEmpty.usu. unfold Z.of_uint.
  by rewrite DecimalPos.Unsigned.of_to.
Qed.

Lemma string_of_uint_nonempty (d : Decimal.uint) :
  d <> Decimal.Nil -> NilEmpty.string_of_uint d <> "".
Proof. by destruct d. Qed.

(** [Number] reads the rendering of a counter as the double nearest to it. *)
Lemma Number_Z_to_string (z : Z) : Number (Z_to_string z) = Double.of_Z z.
Proof.
  destruct z as [|p|p]; [reflexivity| |].
  - unfold Z_to_string. simpl Z.to_int. unfold NilZero.string_of_int.
    pose proof (DecimalPos.Unsigned.to_uint_nonnil p) as Hnil.
    assert (Hs : NilZero.string_of_uint (Pos.to_uint p)
                 = NilEmpty.string_of_uint (Pos.to_uint p)).
    { unfold NilZero.string_of_uint. by destruct (Pos.to_uint p). }
    rewrite Hs.
    pose proof (string_of_uint_digits (Pos.to_uint p)) as Hd.
    pose proof (string_of_uint_nonempty _ Hnil) as Hne.
    destruct (NilEmpty.string_of_uint (Pos.to_uint p)) as [|c s'] eqn:HD; [done|].
    assert (Hc : exists v, Chars.digit_val c = Some v).
    { simpl in Hd. destruct (Chars.digit_val c); [eauto|discriminate]. }
    destruct Hc as [v Hc].
    destruct (digit_is_no_sign c v Hc) as (Hm & Hp & _).
    unfold Number.
    assert (Hts : trim_start (String c s') = String c s').
    { simpl. by rewrite (digit_not_space c v Hc). }
    rewrite Hts, (trim_end_digits _ Hd).
    change (String.eqb (String c s') "") with false. cbv iota.
    rewrite (NonDecimal_digits _ Hd).
    rewrite (StrDecimalLiteral_digits _ false (String c s')); try done.
    + by rewrite <- HD, decimal_value_to_uint.
    + simpl. by rewrite Hm, Hp.
  - unfold Z_to_string. simpl Z.to_int. unfold NilZero.string_of_int.
    pose proof (DecimalPos.Unsigned.to_uint_nonnil p) as Hnil.
    assert (Hs : NilZero.string_of_uint (Pos.to_uint p)
                 = NilEmpty.string_of_uint (Pos.to_uint p)).
    { unfold NilZero.string_of_uint. by destruct (Pos.to_uint p). }
    rewrite Hs.
    pose proof (string_of_uint_digits (Pos.to_uint p)) as Hd.
    pose proof (string_of_uint_nonempty _ Hnil) as Hne.
    pose proof (decimal_value_to_uint p) as Hval.
    destruct (NilEmpty.string_of_uint (Pos.to_uint p)) as [|c s'] eqn:HD; [done|].
    assert (Hc : exists v, Chars.digit_val c = Some v).
    { simpl in Hd. destruct (Chars.digit_val c); [eauto|discriminate]. }
    destruct Hc as [v Hc].
    destruct (digit_is_no_sign c v Hc)
      as (_ & _ & Hx & HX & Ho & HO & Hb & HB & _).
    unfold Number.
    assert (Hte : trim_end (String "-" (String c s')) = String "-" (String c s')).
    { apply trim_end_cons; [by apply trim_end_digits | done]. }
    change (trim_start (String "-" (String c s'))) with (String "-" (String c s')).
    rewrite Hte.
    change (String.eqb (String "-" (String c s')) "") with false. cbv iota.
    assert (Hnd : NonDecimalIntegerLiteral (String "-" (String c s')) = None).
    { simpl. by rewrite Hx, HX, Ho, HO, Hb, HB. }
    rewrite Hnd.
    rewrite (StrDecimalLiteral_digits _ true (String c s')); try done.
    by rewrite Hval.
Qed.

(** *** Integers that a double holds exactly *)

Lemma round_ratio_exact (p : Z) :
  0 < p <= 2 ^ 53 ->
  exists n u,
    Double.round_ratio p 1 = (n, u) /\ 0 < n /\ u <= 971 /\
    ((0 <= u /\ n * 2 ^ u = p) \/ (u < 0 /\ n = p * 2 ^ (- u))).
Proof.
  intros [Hpos Hle].
  destruct (Z.log2_spec p Hpos) as [Hlo Hhi].
  pose proof (Z.log2_nonneg p) as Ha0.
  assert (Ha : Z.log2 p <= 53).
  { rewrite <- (Z.log2_pow2 53) by lia. by apply Z.log2_le_mono. }
  unfold Double.round_ratio, Double.log2_ratio, Double.scaled_le.
  change (Z.log2 1) with 0. rewrite Z.sub_0_r, Z.mul_1_l.
  replace (0 <=? Z.log2 p) with true by (symmetry; by apply Z.leb_le).
  replace (2 ^ Z.log2 p <=? p) with true by (symmetry; by apply Z.leb_le).
  rewrite (Z.max_l (Z.log2 p - 52) (-1074)) by lia.
  set (a := Z.log2 p) in *.
  destruct (Z.leb_spec 0 (a - 52)) as [Hu | Hu].
  - (* the unit in the last place is 1 or 2 *)
    assert (a = 52 \/ a = 53) as [Ha52 | Ha53] by lia.
    + rewrite Ha52 in *. change (52 - 52) with 0. change (2 ^ 0) with 1.
      rewrite Z.mul_1_l, Z.div_1_r, Z.mod_1_r.
      change (Z.succ 52) with 53 in Hhi.
      replace ((1 <? 2 * 0) || (1 =? 2 * 0) && Z.odd p) with false by reflexivity.
      cbv iota.
      replace (p =? 2 ^ 53) with false by (symmetry; apply Z.eqb_neq; lia).
      exists p, 0. split; [done|]. split; [done|]. split; [lia|].
      left. lia.
    + rewrite Ha53 in *. assert (p = 2 ^ 53) as -> by lia.
      exists (2 ^ 52), 1. split; [vm_compute; reflexivity|].
      split; [done|]. split; [lia|]. left. split; [lia|reflexivity].
  - (* every integer at this scale is a double *)
    rewrite Z.div_1_r, Z.mod_1_r.
    replace ((1 <? 2 * 0) || (1 =? 2 * 0) && Z.odd (p * 2 ^ (- (a - 52))))
      with false by reflexivity.
    cbv iota.
    assert (Hlt : p * 2 ^ (- (a - 52)) < 2 ^ 53).
    { replace 53 with (Z.succ a + (- (a - 52))) by lia.
      rewrite Z.pow_add_r by lia.
      apply Z.mul_lt_mono_pos_r; [|done]. apply Z.pow_pos_nonneg; lia. }
    replace (p * 2 ^ (- (a - 52)) =? 2 ^ 53) with false
      by (symmetry; apply Z.eqb_neq; lia).
    eexists. eexists. split; [reflexivity|].
    split; [apply Z.mul_pos_pos; [done | apply Z.pow_pos_nonneg; lia]|].
    split; [lia|]. right. split; [lia|reflexivity].
Qed.

(** A positive integer up to 2^53 is a double: rounding leaves it as it is. *)
Lemma of_ratio_exact (negative : bool) (p : Z) :
  0 < p <= 2 ^ 53 ->
  Double.of_ratio negative p 1 = Num ((if negative then -1 else 1) * p).
Proof.
  intros Hp. destruct (round_ratio_exact p Hp) as (n & u & Hr & Hn & Hu & Hval).
  unfold Double.of_ratio. rewrite Hr.
  replace (p =? 0) with false by (symmetry; apply Z.eqb_neq; lia).
  replace (n =? 0) with false by (symmetry; apply Z.eqb_neq; lia).
  replace (971 <? u) with false by (symmetry; apply Z.ltb_ge; lia).
  destruct Hval as [[Hu0 Hv] | [Hu0 Hv]].
  - replace (0 <=? u) with true by (symmetry; by apply Z.leb_le).
    by rewrite Hv.
  - replace (0 <=? u) with false by (symmetry; by apply Z.leb_gt).
    assert (H2 : 2 ^ (- u) <> 0) by (apply Z.pow_nonzero; lia).
    rewrite Hv, Z.mod_mul, Z.div_mul by done. reflexivity.
Qed.

(** An integer of magnitude up to 2^53 is read back as itself. *)
Lemma of_Z_exact (n : Z) : Z.abs n <= 2 ^ 53 -> Double.of_Z n = Num n.
Proof.
  intros Hn. unfold Double.of_Z. destruct n as [|p|p]; [reflexivity| |].
  - rewrite of_ratio_exact by (simpl in *; lia). simpl. by destruct p.
  - rewrite of_ratio_exact by (simpl in *; lia). reflexivity.
Qed.
End NumberFacts.

(** [Number] on texts that are no plain counter: blanks around the
    numeral, an exponent, another radix, a fraction, and texts that are
    no numeral. *)
Example Number_of_texts :
  Number " 12 " = Num 12 /\ Number "1e3" = Num 1000 /\
  Number "0x10" = Num 16 /\ Number "-0x10" = NaN /\
  Number "0.5" = Dyadic (2 ^ 52) (-53) /\ Number "2.50" = Dyadic (5 * 2 ^ 50) (-51) /\
  Number "12px" = NaN /\ Number "" = Num 0 /\ Number "  " = Num 0 /\
  Number "-0" = NegZero /\ Number "007" = Num 7 /\
  Number "1e400" = Infinity false /\ Number "-Infinity" = Infinity true /\
  Number "5e-324" = Dyadic 1 (-1074) /\ Number "2e-324" = Num 0.
Proof. vm_compute. repeat split. Qed.

(** Beyond 2^53 a counter shows as the nearest double, ties going to the
    even mantissa: the bound of [of_Z_exact] cannot be raised. *)
Example Number_beyond_2_53 :
  Number "9007199254740992" = Num (2 ^ 53) /\
  Number "9007199254740993" = Num (2 ^ 53) /\
  Number "9007199254740995" = Num (2 ^ 53 + 4) /\
  Number "-9007199254740993" = Num (- 2 ^ 53) /\
  Double.of_Z (2 ^ 53 + 1) = Num (2 ^ 53).
Proof. vm_compute. repeat split. Qed.

(* ===================================================================== *)
(** ** The store *)
(* ===================================================================== *)

Section StoreFacts.
Import Redis.
Implicit Types (s : Store) (key field : string).

Lemma hincrby_count key field s N :
  count key field s = Some N ->
  hincrby key field 1 s =
    (Ok (N + 1),
     mkStore (<[key := <[field := Z_to_string (N + 1)]>
                         (default ∅ (hashes s !! key))]> (hashes s))
             (ttls s)).
Proof.
  unfold count, hincrby. intros H.
  destruct (default ∅ (hashes s !! key) !! field) as [v|].
  - by rewrite H.
  - by injection H as <-.
Qed.

Lemma hincrby_ok key field s n s' :
  hincrby key field 1 s = (Ok n, s') ->
  exists N, count key field s = Some N /\ n = N + 1.
Proof.
  unfold count, hincrby. intros H.
  destruct (default ∅ (hashes s !! key) !! field) as [v|].
  - destruct (Z_of_string v) as [m|]; [|discriminate].
    exists m. split; [done|]. by injection H as <- _.
  - exists 0. split; [done|]. by injection H as <- _.
Qed.

Lemma count_put key field (h : gmap string string)
      (hs : gmap string (gmap string string)) (t : gmap string Z) n :
  count key field (mkStore (<[key := <[field := Z_to_string n]> h]> hs) t) = Some n.
Proof.
  unfold count. simpl. rewrite lookup_insert_eq. simpl.
  rewrite lookup_insert_eq. apply Z_of_to_string.
Qed.

Lemma fields_put key field (h : gmap string string)
      (hs : gmap string (gmap string string)) (t : gmap string Z) v :
  fields key (mkStore (<[key := <[field := v]> h]> hs) t) = {[field]} ∪ dom h.
Proof.
  unfold fields. simpl. rewrite lookup_insert_eq. simpl. apply dom_insert_L.
Qed.

Lemma count_absent_or_present key field s N :
  count key field s = Some N -> N <> 0 -> field ∈ fields key s.
Proof.
  unfold count, fields. intros H Hn.
  destruct (default ∅ (hashes s !! key) !! field) as [v|] eqn:Hv.
  - apply elem_of_dom. eauto.
  - congruence.
Qed.

(** A positive time-to-live leaves every hash as it is. *)
Lemma expire_positive key seconds s :
  0 < seconds ->
  hashes (snd (expire key seconds s)) = hashes s.
Proof.
  intros H. unfold expire.
  destruct (hashes s !! key); [|done].
  destruct (seconds <=? 0) eqn:E; [lia|done].
Qed.

(** On a key that exists, a positive time-to-live is recorded. *)
Lemma expire_sets_ttl key seconds s :
  0 < seconds -> is_Some (hashes s !! key) ->
  ttls (snd (expire key seconds s)) !! key = Some seconds.
Proof.
  intros H [h Hh]. unfold expire. rewrite Hh.
  destruct (seconds <=? 0) eqn:E; [lia|]. simpl. apply lookup_insert_eq.
Qed.

(** On a key that does not exist, the store is left as it is. *)
Lemma expire_missing key seconds s :
  hashes s !! key = None -> expire key seconds s = (0, s).
Proof. intros H. unfold expire. by rewrite H. Qed.

End StoreFacts.

(* ===================================================================== *)
(** ** One call of each method, step by step *)
(* ===================================================================== *)

Lemma getDate_run (sub : Z) (w : World) :
  getDate (Some sub) w = (Ok (DateFns.format (DateFns.subDays (today w) sub)), tick w).
Proof. reflexivity. Qed.

Lemma getDate_today (w : World) :
  getDate None w = (Ok (DateFns.format (today w)), tick w).
Proof. reflexivity. Qed.

Lemma length_sent_snoc (w : World) (c : Redis.Command) :
  length (sent w ++ [c]) = S (length (sent w)).
Proof. rewrite length_app. simpl. lia. Qed.

(** [track] with [persist = false], case by case. *)
Lemma track_ephemeral_run this name event w :
  let key := ephemeral_key name (DateFns.format (today w)) in
  let field := event_field event in
  let c1 := Redis.EXPIRE key (retention this) in
  let c2 := Redis.HINCRBY key field 1 in
  track this name event false w =
    match faults w (length (sent w)) with
    | Some e => (Throw e, with_line (track_failed e) (with_sent c1 (tick w)))
    | None =>
        let s1 := snd (Redis.expire key (retention this) (store w)) in
        let w1 := with_store s1 (with_sent c1 (tick w)) in
        match faults w (S (length (sent w))) with
        | Some e => (Throw e, with_line (track_failed e) (with_sent c2 w1))
        | None =>
            match Redis.hincrby key field 1 s1 with
            | (Ok _, s2) => (Ok tt, with_store s2 (with_sent c2 w1))
            | (Throw e, s2) =>
                (Throw e, with_line (track_failed e) (with_store s2 (with_sent c2 w1)))
            end
        end
    end.
Proof.
  unfold track, try_catch, bind. cbn [negb]. cbv beta.
  rewrite getDate_today.
  unfold redis.expire, redis.hincrby, request, ret, throw, console_error. simpl.
  destruct (faults w (length (sent w))) as [e|]; [reflexivity|].
  destruct (Redis.expire _ _ (store w)) as [n s1] eqn:E1. simpl.
  rewrite length_sent_snoc.
  destruct (faults w (S (length (sent w)))) as [e|]; [reflexivity|].
  fold (ephemeral_key name (DateFns.format (today w))). fold (event_field event).
  destruct (Redis.hincrby _ _ 1 s1) as [[n2|e] s2]; reflexivity.
Qed.

(** [track] with [persist = true], case by case. *)
Lemma track_persist_run this name event w :
  let key := persisted_key name in
  let field := event_field event in
  let c := Redis.HINCRBY key field 1 in
  track this name event true w =
    match faults w (length (sent w)) with
    | Some e => (Throw e, with_line (track_failed e) (with_sent c w))
    | None =>
        match Redis.hincrby key field 1 (store w) with
        | (Ok _, s2) => (Ok tt, with_store s2 (with_sent c w))
        | (Throw e, s2) =>
            (Throw e, with_line (track_failed e) (with_store s2 (with_sent c w)))
        end
    end.
Proof.
  unfold track, try_catch, bind. cbn [negb]. cbv beta.
  unfold redis.hincrby, request, ret, throw, console_error. simpl.
  destruct (faults w (length (sent w))) as [e|]; [reflexivity|].
  fold (persisted_key name). fold (event_field event).
  destruct (Redis.hincrby _ _ 1 (store w)) as [[n2|e] s2]; reflexivity.
Qed.

(** [retrieve], case by case. *)
Lemma retrieve_run this name date w :
  let key := "insyte::" +:+ name +:+ "::" +:+ date in
  let c := Redis.HGETALL key in
  retrieve this name date w =
    match faults w (length (sent w)) with
    | Some e => (Throw e, with_line (retrieve_failed e) (with_sent c w))
    | None =>
        (Ok (mkResult date (entries (Redis.hgetall key (store w)))),
         with_store (store w) (with_sent c w))
    end.
Proof.
  unfold retrieve, try_catch, bind, redis.hgetall, request, ret, throw,
    console_error. simpl.
  destruct (faults w (length (sent w))) as [e|]; reflexivity.
Qed.

(* ===================================================================== *)
(** ** The constructor *)
(* ===================================================================== *)

Lemma new_Insyte_default : retention (new_Insyte None) = 604800.
Proof. reflexivity. Qed.

Lemma new_Insyte_retention (o : InsyteOpts) :
  retention (new_Insyte (Some o)) =
    if truthy (opts_retention o) then opts_retention o else 604800.
Proof. unfold new_Insyte. by destruct (truthy (opts_retention o)). Qed.

(** C9: constructing the tracker with a retention of 0 leaves the
    retention at the default of 604800 seconds.  The constructor assigns
    the option only when it is truthy, so a zero is ignored, and no
    options value at all makes the retention of the tracker zero. *)
Theorem constructor_ignores_zero_retention :
  retention (new_Insyte (Some (mkOpts 0))) = 604800 /\
  (forall o : InsyteOpts,
      retention (new_Insyte (Some o)) =
        if truthy (opts_retention o) then opts_retention o else 604800) /\
  (forall opts : option InsyteOpts, retention (new_Insyte opts) <> 0).
Proof.
  split; [reflexivity|]. split; [apply new_Insyte_retention|].
  intros [o|]; [|discriminate].
  rewrite new_Insyte_retention. unfold truthy.
  destruct (opts_retention o =? 0) eqn:E; simpl; [discriminate|].
  by apply Z.eqb_neq.
Qed.

(* ===================================================================== *)
(** ** track *)
(* ===================================================================== *)

(** The requests that a call with [persist = false] adds. *)
Lemma track_ephemeral_sent this name event w :
  let key := ephemeral_key name (DateFns.format (today w)) in
  let w' := snd (track this name event false w) in
  exists rest,
    sent w' = sent w ++ Redis.EXPIRE key (retention this) :: rest /\
    (rest = [] \/ rest = [Redis.HINCRBY key (event_field event) 1]).
Proof.
  intros key w'. subst w'. rewrite track_ephemeral_run. cbv zeta. fold key.
  destruct (faults w (length (sent w))) as [e|].
  { exists []. simpl. auto. }
  destruct (faults w (S (length (sent w)))) as [e|].
  { eexists. simpl. rewrite <- app_assoc. simpl. auto. }
  destruct (Redis.hincrby _ _ _ _) as [[n|e] s2];
    eexists; simpl; rewrite <- app_assoc; simpl; auto.
Qed.

(** C8: with [persist = false] the expiry is sent before the increment.
    The requests a call adds to those already sent always start with the
    EXPIRE on the ephemeral key.  When that request fails, nothing else
    is sent and the store is as it was.  When it is answered, the HINCRBY
    on the same key is sent right after it and nothing else is, and the
    increment is executed on the store as the expiry left it. *)
Theorem track_expire_precedes_hincrby this name event w :
  let key := ephemeral_key name (DateFns.format (today w)) in
  let field := event_field event in
  let w' := snd (track this name event false w) in
  (exists rest, sent w' = sent w ++ Redis.EXPIRE key (retention this) :: rest) /\
  (forall e, faults w (length (sent w)) = Some e ->
     sent w' = sent w ++ [Redis.EXPIRE key (retention this)] /\
     store w' = store w) /\
  (faults w (length (sent w)) = None ->
     sent w' = sent w ++ [Redis.EXPIRE key (retention this);
                          Redis.HINCRBY key field 1] /\
     (faults w (S (length (sent w))) = None ->
        store w' =
          snd (Redis.hincrby key field 1
                 (snd (Redis.expire key (retention this) (store w)))))).
Proof.
  intros key field w'. split; [|split].
  - destruct (track_ephemeral_sent this name event w) as (rest & Hs & _).
    by exists rest.
  - intros e Hf. subst w'. rewrite track_ephemeral_run. cbv zeta.
    fold key field. by rewrite Hf.
  - intros Hf. subst w'. rewrite track_ephemeral_run. cbv zeta.
    fold key field. rewrite Hf.
    destruct (faults w (S (length (sent w)))) as [e|].
    { simpl. split; [by rewrite <- app_assoc | done]. }
    destruct (Redis.hincrby _ _ _ _) as [[n|e] s2];
      simpl; (split; [by rewrite <- app_assoc | done]).
Qed.

(** The time-to-live a call asks for, seen in the store: on a key that
    exists already, the call leaves the key with the retention as its
    time-to-live. *)
Lemma track_refreshes_ttl this name event w :
  let key := ephemeral_key name (DateFns.format (today w)) in
  0 < retention this ->
  is_Some (Redis.hashes (store w) !! key) ->
  faults w (length (sent w)) = None ->
  Redis.ttls (store (snd (track this name event false w))) !! key
    = Some (retention this).
Proof.
  intros key Hpos Hkey Hf. rewrite track_ephemeral_run. cbv zeta. fold key.
  rewrite Hf.
  pose proof (expire_sets_ttl key (retention this) (store w) Hpos Hkey) as Httl.
  destruct (faults w (S (length (sent w)))) as [e|]; [exact Httl|].
  unfold Redis.hincrby.
  destruct (default ∅ _ !! event_field event) as [v|]; [|exact Httl].
  destruct (Z_of_string v); exact Httl.
Qed.

(** C3: every call of [track] with [persist = false] sets the
    time-to-live of the ephemeral key to the retention of the tracker: the
    call sends exactly one EXPIRE, on the key insyte::<name>::<today>,
    with the retention as its seconds, and on a key that exists the store
    then holds that time-to-live.  The retention is 604800 for a tracker
    built without options, 120 for one built with {retention: 120}, and
    in general the value given at construction when that value is not
    zero. *)
Theorem track_ephemeral_ttl_is_retention this name event w :
  let key := ephemeral_key name (DateFns.format (today w)) in
  let w' := snd (track this name event false w) in
  filter (fun c => is_EXPIRE c = true) (drop (length (sent w)) (sent w'))
    = [Redis.EXPIRE key (retention this)] /\
  (0 < retention this ->
   is_Some (Redis.hashes (store w) !! key) ->
   faults w (length (sent w)) = None ->
   Redis.ttls (store w') !! key = Some (retention this)) /\
  retention (new_Insyte None) = 604800 /\
  retention (new_Insyte (Some (mkOpts 120))) = 120 /\
  (forall o : InsyteOpts,
     opts_retention o <> 0 -> retention (new_Insyte (Some o)) = opts_retention o).
Proof.
  intros key w'. split; [|split; [|split; [|split]]]; try reflexivity.
  - destruct (track_ephemeral_sent this name event w) as (rest & Hs & Hr).
    subst w'. fold key in Hs. rewrite Hs, drop_app_length.
    destruct Hr as [-> | ->]; reflexivity.
  - apply track_refreshes_ttl.
  - intros o Ho. rewrite new_Insyte_retention. unfold truthy.
    by replace (opts_retention o =? 0) with false
      by (symmetry; by apply Z.eqb_neq).
Qed.

(** A call with [persist = true] whose request reaches the store, on a
    field that holds a count. *)
Lemma track_persist_ok this name event w N :
  let key := persisted_key name in
  let field := event_field event in
  count key field (store w) = Some N ->
  faults w (length (sent w)) = None ->
  track this name event true w =
    (Ok tt,
     with_store
       (Redis.mkStore
          (<[key := <[field := Z_to_string (N + 1)]>
                      (default ∅ (Redis.hashes (store w) !! key))]>
             (Redis.hashes (store w)))
          (Redis.ttls (store w)))
       (with_sent (Redis.HINCRBY key field 1) w)).
Proof.
  intros key field Hc Hf. rewrite track_persist_run. cbv zeta.
  fold key field. rewrite Hf, (hincrby_count _ _ _ _ Hc). reflexivity.
Qed.

(** A call with [persist = true] leaves every time-to-live as it is and
    sends one HINCRBY. *)
Lemma track_persist_frame this name event w :
  let key := persisted_key name in
  let field := event_field event in
  let w' := snd (track this name event true w) in
  sent w' = sent w ++ [Redis.HINCRBY key field 1] /\
  Redis.ttls (store w') = Redis.ttls (store w) /\
  (forall k, k <> key ->
     Redis.hashes (store w') !! k = Redis.hashes (store w) !! k) /\
  (forall f, f <> field ->
     default ∅ (Redis.hashes (store w') !! key) !! f
       = default ∅ (Redis.hashes (store w) !! key) !! f).
Proof.
  intros key field w'. subst w'. rewrite track_persist_run. cbv zeta.
  fold key field.
  destruct (faults w (length (sent w))) as [e|]; [by simpl|].
  unfold Redis.hincrby.
  destruct (default ∅ (Redis.hashes (store w) !! key) !! field) as [v|] eqn:Hv;
    [destruct (Z_of_string v); [|by simpl]|];
    simpl; (split; [done|]); (split; [done|]); split;
    try (intros k Hk; by rewrite lookup_insert_ne);
    intros f Hf; rewrite lookup_insert_eq; simpl; by rewrite lookup_insert_ne.
Qed.

Lemma track_times_persist this name event n : forall w N,
  let key := persisted_key name in
  let field := event_field event in
  count key field (store w) = Some N ->
  (forall k, (k < n)%nat -> faults w (length (sent w) + k) = None) ->
  exists w',
    track_times n this name event true w = (Ok tt, w') /\
    count key field (store w') = Some (N + Z.of_nat n) /\
    Redis.ttls (store w') = Redis.ttls (store w) /\
    sent w' = sent w ++ replicate n (Redis.HINCRBY key field 1).
Proof.
  induction n as [|n IH]; intros w N key field Hc Hf.
  - exists w. simpl. rewrite Z.add_0_r, app_nil_r. auto.
  - assert (Hf0 : faults w (length (sent w)) = None).
    { rewrite <- (Nat.add_0_r (length (sent w))). apply Hf. lia. }
    pose proof (track_persist_ok this name event w N Hc Hf0) as Hrun.
    cbv zeta in Hrun. fold key field in Hrun.
    set (w1 := with_store _ _) in Hrun.
    destruct (IH w1 (N + 1)) as (w' & Hrest & Hcount & Httl & Hsent).
    { unfold w1. simpl. apply count_put. }
    { intros k Hk. unfold w1. simpl. rewrite length_sent_snoc.
      replace (S (length (sent w)) + k)%nat with (length (sent w) + S k)%nat by lia.
      apply Hf. lia. }
    exists w'. split; [|split; [|split]].
    + simpl. unfold bind. rewrite Hrun. exact Hrest.
    + fold key field in Hcount. rewrite Hcount. f_equal. lia.
    + rewrite Httl. reflexivity.
    + fold key field in Hsent. rewrite Hsent. unfold w1. simpl.
      by rewrite <- app_assoc.
Qed.

(** C4: [track] with [persist = true] sends no expiry.  Its one request
    is the HINCRBY on the key insyte::<name>; the time-to-live of every
    key, that one included, is what it was, and so are all other keys and
    all other fields.  Calls in a row keep adding up: after [n] of them a
    count of [N] stands at [N + n]. *)
Theorem track_persist_no_expiry this name event :
  let key := persisted_key name in
  let field := event_field event in
  (forall w,
     let w' := snd (track this name event true w) in
     sent w' = sent w ++ [Redis.HINCRBY key field 1] /\
     Redis.ttls (store w') = Redis.ttls (store w) /\
     (forall k, k <> key ->
        Redis.hashes (store w') !! k = Redis.hashes (store w) !! k) /\
     (forall f, f <> field ->
        default ∅ (Redis.hashes (store w') !! key) !! f
          = default ∅ (Redis.hashes (store w) !! key) !! f)) /\
  (forall (n : nat) w N,
     count key field (store w) = Some N ->
     (forall k, (k < n)%nat -> faults w (length (sent w) + k) = None) ->
     exists w',
       track_times n this name event true w = (Ok tt, w') /\
       count key field (store w') = Some (N + Z.of_nat n) /\
       Redis.ttls (store w') = Redis.ttls (store w) /\
       sent w' = sent w ++ replicate n (Redis.HINCRBY key field 1)).
Proof.
  intros key field. split.
  - intros w. apply track_persist_frame.
  - intros n w N. apply track_times_persist.
Qed.

(** A call with [persist = false] that was fulfilled. *)
Lemma track_ephemeral_fulfilled this name event w w1 :
  let key := ephemeral_key name (DateFns.format (today w)) in
  let field := event_field event in
  track this name event false w = (Ok tt, w1) ->
  sent w1 = sent w ++ [Redis.EXPIRE key (retention this);
                       Redis.HINCRBY key field 1] /\
  (exists N, count key field (store w1) = Some N) /\
  field ∈ fields key (store w1) /\
  faults w1 = faults w /\ clock w1 = clock w /\
  clock_reads w1 = S (clock_reads w).
Proof.
  intros key field. rewrite track_ephemeral_run. cbv zeta. fold key field.
  destruct (faults w (length (sent w))) as [e|]; [discriminate|].
  destruct (faults w (S (length (sent w)))) as [e|]; [discriminate|].
  destruct (Redis.hincrby _ _ _ _) as [[n|e] s2] eqn:Hh; [|discriminate].
  intros [= <-]. simpl.
  destruct (hincrby_ok _ _ _ _ _ Hh) as (N & Hc & ->).
  rewrite (hincrby_count _ _ _ _ Hc) in Hh.
  assert (Hs2 : s2 = snd (Ok (N + 1), s2)) by reflexivity.
  rewrite <- Hh in Hs2. simpl in Hs2. subst s2.
  split; [by rewrite <- app_assoc|].
  split; [eexists; apply count_put|].
  split; [|done]. rewrite fields_put. set_solver.
Qed.

(** C1: two calls of [track] with [persist = false] for the same name and
    event on the same day.  Both send their requests to the same key
    insyte::<name>::<today> and to the same field, the JSON text of
    {event}; the second call takes the count of that field from the [N]
    the first call left to [N + 1], and the hash has the fields it had.
    The tracker has a positive retention, the first call was fulfilled
    and the two requests of the second are answered. *)
Theorem track_twice_same_day this name event w w1 :
  let key := ephemeral_key name (DateFns.format (today w)) in
  let field := event_field event in
  0 < retention this ->
  track this name event false w = (Ok tt, w1) ->
  today w1 = today w ->
  faults w1 (length (sent w1)) = None ->
  faults w1 (S (length (sent w1))) = None ->
  field = JSON.stringify (JObject [("event", event)]) /\
  exists N w2,
    track this name event false w1 = (Ok tt, w2) /\
    sent w1 = sent w ++ [Redis.EXPIRE key (retention this);
                         Redis.HINCRBY key field 1] /\
    sent w2 = sent w1 ++ [Redis.EXPIRE key (retention this);
                          Redis.HINCRBY key field 1] /\
    count key field (store w1) = Some N /\
    count key field (store w2) = Some (N + 1) /\
    field ∈ fields key (store w1) /\
    fields key (store w2) = fields key (store w1).
Proof.
  intros key field Hpos Hfirst Hday Hf1 Hf2. split; [reflexivity|].
  destruct (track_ephemeral_fulfilled this name event w w1 Hfirst)
    as (Hsent & [N HN] & Hin & _).
  fold key field in Hsent, HN, Hin.
  pose proof (track_ephemeral_run this name event w1) as Hrun.
  cbv zeta in Hrun. rewrite Hday in Hrun. fold key field in Hrun.
  rewrite Hf1, Hf2 in Hrun.
  destruct (Redis.expire key (retention this) (store w1)) as [r s1] eqn:He.
  pose proof (expire_positive key (retention this) (store w1) Hpos) as Hh.
  rewrite He in Hh. simpl in Hh, Hrun.
  assert (Hc1 : count key field s1 = Some N).
  { unfold count in *. by rewrite Hh. }
  rewrite (hincrby_count _ _ _ _ Hc1) in Hrun.
  exists N. eexists. split; [exact Hrun|]. simpl.
  split; [exact Hsent|]. split; [by rewrite <- app_assoc|].
  split; [exact HN|]. split; [apply count_put|]. split; [exact Hin|].
  rewrite fields_put, Hh. unfold fields in Hin.
  apply subseteq_union_1_L, singleton_subseteq_l, Hin.
Qed.

(* ===================================================================== *)
(** ** retrieve *)
(* ===================================================================== *)

Lemma hgetall_entries (key : string) (s : Redis.Store) :
  default [] (Redis.hgetall key s)
    = map_to_list (default ∅ (Redis.hashes s !! key)).
Proof.
  unfold Redis.hgetall.
  destruct (Redis.hashes s !! key) as [h|]; simpl.
  - destruct (decide (h = ∅)) as [-> |]; [by rewrite map_to_list_empty|done].
  - by rewrite map_to_list_empty.
Qed.

(** C5: [retrieve] on a key that holds no tracked events, that is when
    the store answers the request with no hash or with an empty one, is
    fulfilled with the date it was given and an empty list of events. *)
Theorem retrieve_nothing_tracked this name d w :
  let key := "insyte::" +:+ name +:+ "::" +:+ d in
  faults w (length (sent w)) = None ->
  Redis.hgetall key (store w) = None \/ Redis.hgetall key (store w) = Some [] ->
  fst (retrieve this name d w) = Ok (mkResult d []).
Proof.
  intros key Hf Hempty. rewrite retrieve_run. cbv zeta. fold key. rewrite Hf.
  simpl. unfold entries. by destruct Hempty as [-> | ->].
Qed.

(** A key that was never written, or whose hash is empty, is such a key. *)
Lemma hgetall_no_hash (key : string) (s : Redis.Store) :
  Redis.hashes s !! key = None \/ Redis.hashes s !! key = Some ∅ ->
  Redis.hgetall key s = None.
Proof.
  unfold Redis.hgetall. intros [-> | ->]; [done|].
  by destruct (decide _).
Qed.

(** C6: [retrieve] reads the key insyte::<name>::<date> and, its request
    answered, gives back the date it was given together with one object
    per field of the hash; the object has a single property, named by the
    field string as it is stored, whose value is [Number] of the stored
    value.  A stored count [n] thus shows as the double nearest to [n],
    which is [n] itself up to a magnitude of 2^53. *)
Theorem retrieve_exposes_raw_fields this name d w :
  let key := "insyte::" +:+ name +:+ "::" +:+ d in
  let h := default ∅ (Redis.hashes (store w) !! key) in
  faults w (length (sent w)) = None ->
  exists r w',
    retrieve this name d w = (Ok r, w') /\
    sent w' = sent w ++ [Redis.HGETALL key] /\
    store w' = store w /\
    date r = d /\
    event r = List.map (fun '(f, v) => {[ f := Number v ]}) (map_to_list h) /\
    (forall f v, h !! f = Some v -> {[ f := Number v ]} ∈ event r) /\
    (forall f n, h !! f = Some (Z_to_string n) ->
                 {[ f := Double.of_Z n ]} ∈ event r) /\
    (forall f n, Z.abs n <= 2 ^ 53 -> h !! f = Some (Z_to_string n) ->
                 {[ f := Num n ]} ∈ event r).
Proof.
  intros key h Hf. rewrite retrieve_run. cbv zeta. fold key. rewrite Hf.
  eexists. eexists. split; [reflexivity|]. simpl.
  unfold entries. rewrite hgetall_entries. fold h.
  assert (Hall : forall f v, h !! f = Some v ->
            ({[ f := Number v ]} : gmap string JSNumber)
              ∈ List.map (fun '(f, v) => {[ f := Number v ]}) (map_to_list h)).
  { intros f v Hv. apply list_elem_of_In, in_map_iff.
    exists (f, v). split; [reflexivity|].
    apply list_elem_of_In, elem_of_map_to_list, Hv. }
  repeat split; try done.
  - intros f n Hn. rewrite <- Number_Z_to_string. by apply Hall.
  - intros f n Hb Hn. rewrite <- (of_Z_exact n Hb), <- Number_Z_to_string.
    by apply Hall.
Qed.

(* ===================================================================== *)
(** ** retrieveDays *)
(* ===================================================================== *)

(** C10: for [nDays <= 0] the loop of [retrieveDays] does not run, its
    test failing at once whatever the fuel: the call is fulfilled with the
    empty array and sends nothing to the store; the store and the console
    are as they were. *)
Theorem retrieveDays_nonpositive this name nDays w :
  nDays <= 0 ->
  (forall fuel, retrieveDays_loop this name nDays fuel 0 [] w = (Ok [], w)) /\
  exists w',
    retrieveDays this name (Some nDays) w = (Ok [], w') /\
    sent w' = sent w /\ store w' = store w /\ console w' = console w.
Proof.
  intros Hn. split.
  - intros [|fuel]; [reflexivity|]. cbn [retrieveDays_loop].
    by replace (0 <? nDays) with false by (symmetry; apply Z.ltb_ge; lia).
  - unfold retrieveDays. simpl default.
    replace (Z.to_nat nDays) with 0%nat by lia.
    eexists. split; [reflexivity|]. done.
Qed.

(** One iteration of the loop. *)
Lemma retrieveDays_iteration this name i w :
  let date := DateFns.format (DateFns.subDays (today w) i) in
  let c := Redis.HGETALL ("insyte::" +:+ name +:+ "::" +:+ date) in
  bind (getDate (Some i)) (fun date => start (retrieve this name date)) w =
    match faults w (length (sent w)) with
    | Some e =>
        (Ok (Throw e), with_line (retrieve_failed e) (with_sent c (tick w)))
    | None =>
        (Ok (Ok (mkResult date
                   (entries (Redis.hgetall ("insyte::" +:+ name +:+ "::" +:+ date)
                                           (store w))))),
         with_store (store w) (with_sent c (tick w)))
    end.
Proof.
  intros date c. unfold bind. rewrite getDate_run. fold date.
  unfold start. rewrite retrieve_run. cbv zeta. fold c. simpl.
  destruct (faults w (length (sent w))) as [e|]; reflexivity.
Qed.

Lemma day_asked_shift i w w1 k :
  clock w1 = clock w -> clock_reads w1 = S (clock_reads w) ->
  day_asked (i + 1) w1 k = day_asked i w (S k).
Proof.
  intros Hc Hr. unfold day_asked. rewrite Hc, Hr, Nat.add_succ_r. simpl.
  do 2 f_equal. lia.
Qed.

Lemma day_outcome_shift name i w w1 k :
  clock w1 = clock w -> clock_reads w1 = S (clock_reads w) ->
  faults w1 = faults w -> store w1 = store w ->
  length (sent w1) = S (length (sent w)) ->
  day_outcome name (i + 1) w1 k = day_outcome name i w (S k) /\
  day_line w1 k = day_line w (S k) /\
  day_key name (i + 1) w1 k = day_key name i w (S k).
Proof.
  intros Hc Hr Hf Hs Hl. unfold day_outcome, day_line, day_key.
  rewrite (day_asked_shift i w w1 k Hc Hr), Hf, Hs, Hl, Nat.add_succ_r.
  done.
Qed.

Lemma map_seq_S {A} (f : nat -> A) (n : nat) :
  List.map f (seq 0 (S n)) = f 0%nat :: List.map (fun k => f (S k)) (seq 0 n).
Proof. cbn [seq List.map]. by rewrite <- seq_shift, List.map_map. Qed.

Lemma flat_map_seq_S {A} (f : nat -> list A) (n : nat) :
  flat_map f (seq 0 (S n)) = f 0%nat ++ flat_map (fun k => f (S k)) (seq 0 n).
Proof.
  cbn [seq flat_map]. f_equal.
  rewrite <- seq_shift, !flat_map_concat_map. by rewrite List.map_map.
Qed.

(** After one iteration, entered in [w] with the counter at [i] and left
    in [w1], the remaining ones are given by the induction hypothesis
    [IH], their indices moved by one. *)
Ltac rest_of_loop IH name i w w1 :=
  rewrite (IH _ _ w1) by lia;
  unfold after_days;
  rewrite (List.map_ext _ _
             (fun k => proj1 (day_outcome_shift name i w w1 k
                                eq_refl eq_refl eq_refl eq_refl
                                (length_sent_snoc _ _))));
  rewrite (List.map_ext _ _
             (fun k => f_equal Redis.HGETALL
                         (proj2 (proj2 (day_outcome_shift name i w w1 k
                                          eq_refl eq_refl eq_refl eq_refl
                                          (length_sent_snoc _ _))))));
  rewrite (flat_map_ext _ _
             (fun k => proj1 (proj2 (day_outcome_shift name i w w1 k
                                       eq_refl eq_refl eq_refl eq_refl
                                       (length_sent_snoc _ _)))));
  unfold w1; simpl; rewrite <- !app_assoc; simpl;
  do 2 f_equal; lia.

(** The loop, run from any counter [i] for [fuel] iterations that the
    test [i < nDays] lets through. *)
Lemma retrieveDays_loop_run this name nDays fuel : forall i promises w,
  Z.of_nat fuel <= Z.max 0 (nDays - i) ->
  retrieveDays_loop this name nDays fuel i promises w =
    (Ok (promises ++ List.map (day_outcome name i w) (seq 0 fuel)),
     after_days name i w fuel).
Proof.
  induction fuel as [|fuel IH]; intros i promises w Hle.
  - simpl. unfold ret, after_days. simpl.
    rewrite !app_nil_r, Nat.add_0_r. by destruct w.
  - cbn [retrieveDays_loop].
    assert (Hlt : (i <? nDays) = true) by (apply Z.ltb_lt; lia).
    rewrite Hlt.
    change (bind (getDate (Some i)) ?k w) with
      (bind (bind (getDate (Some i))
                  (fun date => start (retrieve this name date)))
            (fun promise =>
               retrieveDays_loop this name nDays fuel (i + 1)
                                 (promises ++ [promise])) w).
    unfold bind at 1. rewrite retrieveDays_iteration. cbv zeta.
    set (date := DateFns.format (DateFns.subDays (today w) i)).
    assert (Hdate : day_asked i w 0 = date).
    { unfold day_asked, date, today. by rewrite Nat.add_0_r, Z.add_0_r. }
    rewrite map_seq_S. unfold after_days.
    rewrite map_seq_S, flat_map_seq_S.
    unfold day_outcome at 1. unfold day_line at 1. unfold day_key at 1 2.
    rewrite Nat.add_0_r, Hdate.
    destruct (faults w (length (sent w))) as [e|] eqn:Hf.
    + set (w1 := with_line _ _). rest_of_loop IH name i w w1.
    + set (w1 := with_store _ _). rest_of_loop IH name i w w1.
Qed.

(* ===================================================================== *)
(** ** Dates: moving by days, printing and reading back *)
(* ===================================================================== *)

Section DateFacts.
Import DateFns.

Lemma Date_ltb_lt a b : Date_ltb a b = true <-> Date_lt a b.
Proof.
  unfold Date_ltb, Date_lt.
  rewrite !orb_true_iff, !andb_true_iff, !orb_true_iff, !andb_true_iff,
    !Z.ltb_lt, !Z.eqb_eq.
  tauto.
Qed.

Lemma Date_lt_trans a b c : Date_lt a b -> Date_lt b c -> Date_lt a c.
Proof. unfold Date_lt. lia. Qed.

Lemma days_in_month_bounds y m : 28 <= days_in_month y m <= 31.
Proof.
  unfold days_in_month.
  destruct (m =? 2); [destruct (is_leap_year y); lia|].
  destruct ((m =? 4) || (m =? 6) || (m =? 9) || (m =? 11)); lia.
Qed.

Lemma prev_day_valid d : valid_date d -> valid_date (prev_day d).
Proof.
  unfold valid_date, prev_day. intros [Hm Hd].
  destruct (1 <? day d) eqn:E1; simpl.
  - apply Z.ltb_lt in E1. lia.
  - destruct (1 <? month d) eqn:E2; simpl.
    + apply Z.ltb_lt in E2.
      pose proof (days_in_month_bounds (year d) (month d - 1)). lia.
    + change (days_in_month (year d - 1) 12) with 31. lia.
Qed.

Lemma prev_day_earlier d : valid_date d -> Date_lt (prev_day d) d.
Proof.
  unfold valid_date, prev_day, Date_lt. intros [Hm Hd].
  destruct (1 <? day d) eqn:E1; simpl.
  - apply Z.ltb_lt in E1. lia.
  - destruct (1 <? month d) eqn:E2; simpl.
    + apply Z.ltb_lt in E2. lia.
    + lia.
Qed.

(** The day after the day before is the day itself. *)
Lemma next_day_prev_day d : valid_date d -> next_day (prev_day d) = d.
Proof.
  unfold valid_date, prev_day, next_day. intros [Hm Hd].
  destruct d as [y m dd]. simpl in *.
  destruct (1 <? dd) eqn:E1; simpl.
  - apply Z.ltb_lt in E1.
    replace (dd - 1 <? days_in_month y m) with true
      by (symmetry; apply Z.ltb_lt; lia).
    f_equal. lia.
  - apply Z.ltb_ge in E1. assert (dd = 1) as -> by lia.
    destruct (1 <? m) eqn:E2; simpl.
    + apply Z.ltb_lt in E2. rewrite Z.ltb_irrefl.
      replace (m - 1 <? 12) with true by (symmetry; apply Z.ltb_lt; lia).
      f_equal. lia.
    + apply Z.ltb_ge in E2. assert (m = 1) as -> by lia.
      change (days_in_month (y - 1) 12) with 31. simpl. f_equal. lia.
Qed.

Lemma prev_day_year d : year d - 1 <= year (prev_day d) <= year d.
Proof.
  unfold prev_day.
  destruct (1 <? day d); simpl; [lia|].
  destruct (1 <? month d); simpl; lia.
Qed.

(** [subDays] by a natural number of days is that many steps back. *)
Lemma subDays_nat d (k : nat) : subDays d (Z.of_nat k) = Nat.iter k prev_day d.
Proof.
  unfold subDays, addDays.
  destruct k as [|k]; [reflexivity|].
  destruct (0 <=? - Z.of_nat (S k)) eqn:E; [apply Z.leb_le in E; lia|].
  rewrite Z.opp_involutive, Nat2Z.id. reflexivity.
Qed.

Lemma subDays_S d (k : nat) :
  subDays d (Z.of_nat (S k)) = prev_day (subDays d (Z.of_nat k)).
Proof. by rewrite !subDays_nat. Qed.

Lemma subDays_valid d (k : nat) :
  valid_date d -> valid_date (subDays d (Z.of_nat k)).
Proof.
  intros Hd. induction k as [|k IH]; [exact Hd|].
  rewrite subDays_S. by apply prev_day_valid.
Qed.

Lemma subDays_earlier d (j k : nat) :
  valid_date d -> (j < k)%nat ->
  Date_lt (subDays d (Z.of_nat k)) (subDays d (Z.of_nat j)).
Proof.
  intros Hd Hjk. induction Hjk as [|k Hjk IH].
  - rewrite subDays_S. apply prev_day_earlier. by apply subDays_valid.
  - eapply Date_lt_trans; [|exact IH].
    rewrite subDays_S. apply prev_day_earlier. by apply subDays_valid.
Qed.

Lemma subDays_year_mono d (j k : nat) :
  (j <= k)%nat -> year (subDays d (Z.of_nat k)) <= year (subDays d (Z.of_nat j)).
Proof.
  intros Hjk. induction Hjk as [|k Hjk IH]; [lia|].
  rewrite subDays_S. pose proof (prev_day_year (subDays d (Z.of_nat k))). lia.
Qed.

(** *** Digits *)

Lemma checked_on_range (P : Z -> bool) (lo len : Z) :
  forallb P (seqZ lo len) = true ->
  forall n, lo <= n < lo + len -> P n = true.
Proof.
  intros Hall n Hn. rewrite forallb_forall in Hall.
  apply Hall, list_elem_of_In, elem_of_seqZ. lia.
Qed.

Lemma addLeadingZeros_2 n : 0 <= n <= 99 -> addLeadingZeros n 2 = two_digits n.
Proof.
  intros Hn. apply String.eqb_eq.
  apply (checked_on_range
           (fun n => String.eqb (addLeadingZeros n 2) (two_digits n)) 0 100);
    [vm_compute; reflexivity | lia].
Qed.

Lemma addLeadingZeros_4 n : 0 <= n <= 9999 -> addLeadingZeros n 4 = four_digits n.
Proof.
  intros Hn. apply String.eqb_eq.
  apply (checked_on_range
           (fun n => String.eqb (addLeadingZeros n 4) (four_digits n)) 0 10000);
    [vm_compute; reflexivity | lia].
Qed.

Lemma digit_val_digit_char a : 0 <= a <= 9 -> Chars.digit_val (Chars.digit_char a) = Some a.
Proof.
  intros Ha.
  assert (Hb : (match Chars.digit_val (Chars.digit_char a) with
                | Some v => v =? a | None => false end) = true).
  { apply (checked_on_range
             (fun a => match Chars.digit_val (Chars.digit_char a) with
                       | Some v => v =? a | None => false end) 0 10);
      [vm_compute; reflexivity | lia]. }
  destruct (Chars.digit_val (Chars.digit_char a)); [|discriminate].
  apply Z.eqb_eq in Hb. by subst.
Qed.

Lemma parseNDigits_2 a b rest :
  0 <= a <= 9 -> 0 <= b <= 9 ->
  parseNDigits 2 (String (Chars.digit_char a) (String (Chars.digit_char b) rest))
    = Some (10 * a + b, rest).
Proof.
  intros Ha Hb. unfold parseNDigits. cbn [take_digits].
  rewrite !digit_val_digit_char by done. do 2 f_equal; lia.
Qed.

Lemma parseNDigits_4 a b c d :
  0 <= a <= 9 -> 0 <= b <= 9 -> 0 <= c <= 9 -> 0 <= d <= 9 ->
  parseNDigits 4
    (String (Chars.digit_char a) (String (Chars.digit_char b)
       (String (Chars.digit_char c) (String (Chars.digit_char d) ""))))
    = Some (1000 * a + 100 * b + 10 * c + d, "").
Proof.
  intros Ha Hb Hc Hd. unfold parseNDigits. cbn [take_digits].
  rewrite !digit_val_digit_char by done. do 2 f_equal; lia.
Qed.

Lemma two_digits_bounds n :
  0 <= n <= 99 ->
  0 <= n / 10 <= 9 /\ 0 <= n mod 10 <= 9 /\ 10 * (n / 10) + n mod 10 = n.
Proof. intros Hn. Z.div_mod_to_equations. lia. Qed.

Lemma four_digits_bounds n :
  0 <= n <= 9999 ->
  0 <= n / 1000 <= 9 /\ 0 <= n / 100 mod 10 <= 9 /\
  0 <= n / 10 mod 10 <= 9 /\ 0 <= n mod 10 <= 9 /\
  1000 * (n / 1000) + 100 * (n / 100 mod 10) + 10 * (n / 10 mod 10) + n mod 10 = n.
Proof. intros Hn. Z.div_mod_to_equations. lia. Qed.

Lemma format_digits d :
  valid_date d -> 1 <= year d <= 9999 ->
  format d =
    String (Chars.digit_char (day d / 10)) (String (Chars.digit_char (day d mod 10))
      (String Chars.slash
        (String (Chars.digit_char (month d / 10)) (String (Chars.digit_char (month d mod 10))
          (String Chars.slash (four_digits (year d))))))).
Proof.
  intros [Hm Hd] Hy.
  pose proof (days_in_month_bounds (year d) (month d)) as Hdim.
  unfold format.
  assert (Hpos : (0 <? year d) = true) by (apply Z.ltb_lt; lia).
  rewrite Hpos, !addLeadingZeros_2, addLeadingZeros_4 by lia.
  reflexivity.
Qed.

(** Reading back what [format] printed: for a date of the calendar in
    the years 1 to 9999, [parse] gives the date itself. *)
Lemma parse_format d ref :
  valid_date d -> 1 <= year d <= 9999 -> parse (format d) ref = Some d.
Proof.
  intros Hv Hy. rewrite (format_digits d Hv Hy). destruct Hv as [Hm Hd].
  pose proof (days_in_month_bounds (year d) (month d)) as Hdim.
  destruct (two_digits_bounds (day d)) as (D1 & D2 & D3); [lia|].
  destruct (two_digits_bounds (month d)) as (M1 & M2 & M3); [lia|].
  destruct (four_digits_bounds (year d)) as (Y1 & Y2 & Y3 & Y4 & Y5); [lia|].
  unfold parse, four_digits.
  rewrite parseNDigits_2 by done. cbn [mbind option_bind expect].
  rewrite Ascii.eqb_refl. cbn [mbind option_bind].
  rewrite parseNDigits_2 by done. cbn [mbind option_bind expect].
  rewrite Ascii.eqb_refl. cbn [mbind option_bind].
  rewrite parseNDigits_4 by done. cbn [mbind option_bind].
  rewrite D3, M3, Y5. cbn [String.eqb andb].
  replace (0 <? year d) with true by (symmetry; apply Z.ltb_lt; lia).
  replace (1 <=? month d) with true by (symmetry; apply Z.leb_le; lia).
  replace (month d <=? 12) with true by (symmetry; apply Z.leb_le; lia).
  replace (1 <=? day d) with true by (symmetry; apply Z.leb_le; lia).
  replace (day d <=? days_in_month (year d) (month d)) with true
    by (symmetry; apply Z.leb_le; lia).
  by destruct d.
Qed.

End DateFacts.

(* ===================================================================== *)
(** ** Sorting and awaiting *)
(* ===================================================================== *)

Lemma sort_insert_last {A} (compareFn : A -> A -> Z) (x : A) (l : list A) :
  (forall y, In y l -> 0 < compareFn x y) ->
  sort_insert compareFn x l = l ++ [x].
Proof.
  induction l as [|y l IH]; intros H; [reflexivity|].
  simpl. replace (0 <? compareFn x y) with true
    by (symmetry; apply Z.ltb_lt, H; by left).
  f_equal. apply IH. intros z Hz. apply H. by right.
Qed.

(** [sort] rearranges: it neither drops nor adds an element. *)
Lemma sort_insert_perm {A} (compareFn : A -> A -> Z) (x : A) (l : list A) :
  Permutation (sort_insert compareFn x l) (x :: l).
Proof.
  induction l as [|y l IH]; simpl; [reflexivity|].
  destruct (0 <? compareFn x y); [|reflexivity].
  rewrite IH. apply perm_swap.
Qed.

Lemma Array_sort_perm {A} (compareFn : A -> A -> Z) (l : list A) :
  Permutation (Array_sort compareFn l) l.
Proof.
  induction l as [|x l IH]; simpl; [reflexivity|].
  rewrite sort_insert_perm. by constructor.
Qed.

(** A list in which every element is put after all the later ones comes
    out of [sort] reversed. *)
Lemma Array_sort_reverses {A} (compareFn : A -> A -> Z) (l : list A) :
  (forall (i j : nat) x y, (i < j)%nat -> l !! i = Some x -> l !! j = Some y ->
                           0 < compareFn x y) ->
  Array_sort compareFn l = rev l.
Proof.
  induction l as [|x l IH]; intros H; [reflexivity|].
  simpl. rewrite IH.
  - apply sort_insert_last. intros y Hy. apply in_rev in Hy.
    apply list_elem_of_In, list_elem_of_lookup in Hy as [j Hj].
    apply (H 0%nat (S j)); [lia|done|done].
  - intros i j a b Hij Ha Hb. apply (H (S i) (S j)); [lia|done|done].
Qed.

Lemma rev_map_seq {A} (f : nat -> A) (n : nat) :
  rev (List.map f (seq 0 n)) = List.map (fun i => f (n - 1 - i)%nat) (seq 0 n).
Proof.
  induction n as [|n IH]; [reflexivity|].
  rewrite (map_seq_S (fun i => f (S n - 1 - i)%nat)).
  rewrite seq_S, List.map_app, rev_app_distr. simpl rev. simpl app.
  rewrite IH. f_equal; [f_equal; lia|].
  apply List.map_ext_in. intros i Hi. apply in_seq in Hi. f_equal. lia.
Qed.

Lemma rejections_elem {A} (ps : list (Result A)) (e : JSError) :
  In e (rejections ps) <-> In (Throw e) ps.
Proof.
  induction ps as [|[a|e'] ps IH]; simpl; [tauto| |].
  - rewrite IH. split; [tauto|]. intros [H|H]; [discriminate|done].
  - rewrite IH. split; intros [H|H]; auto; left; congruence.
Qed.

Lemma rejections_none {A B} (f : B -> A) (l : list B) :
  rejections (List.map (fun x => Ok (f x)) l) = [] /\
  fulfilled (List.map (fun x => Ok (f x)) l) = List.map f l.
Proof. induction l as [|x l [IH1 IH2]]; simpl; [done|]. by rewrite IH2. Qed.

(** Awaiting promises of which one at least is rejected: the error thrown
    is that of one of the rejected promises. *)
Lemma Promise_all_rejects {A} (ps : list (Result A)) (w : World) (e0 : JSError) :
  In (Throw e0) ps ->
  exists e, Promise_all ps w = (Throw e, w) /\ In (Throw e) ps.
Proof.
  intros H0. apply rejections_elem in H0. unfold Promise_all.
  destruct (rejections ps) as [|e es] eqn:Hr; [done|].
  eexists. split; [reflexivity|].
  apply rejections_elem. rewrite Hr. apply nth_In.
  apply Nat.mod_upper_bound. simpl. lia.
Qed.

(** More fuel than the test [i < nDays] lets through changes nothing: the
    loop is ended by its test. *)
Lemma retrieveDays_loop_fuel this name nDays fuel : forall i promises w,
  (Z.to_nat (nDays - i) <= fuel)%nat ->
  retrieveDays_loop this name nDays fuel i promises w =
  retrieveDays_loop this name nDays (Z.to_nat (nDays - i)) i promises w.
Proof.
  induction fuel as [|fuel IH]; intros i promises w Hle.
  - by replace (Z.to_nat (nDays - i)) with 0%nat by lia.
  - destruct (i <? nDays) eqn:Hlt.
    + apply Z.ltb_lt in Hlt.
      replace (Z.to_nat (nDays - i)) with (S (Z.to_nat (nDays - (i + 1)))) by lia.
      cbn [retrieveDays_loop].
      replace (i <? nDays) with true by (symmetry; apply Z.ltb_lt; lia).
      unfold bind. rewrite getDate_run. unfold start.
      destruct (retrieve this name _ (tick w)) as [r w1].
      apply IH. lia.
    + apply Z.ltb_ge in Hlt.
      replace (Z.to_nat (nDays - i)) with 0%nat by lia.
      cbn [retrieveDays_loop].
      by replace (i <? nDays) with false by (symmetry; apply Z.ltb_ge; lia).
Qed.

Lemma lookup_map_seq {A} (f : nat -> A) (n k : nat) (x : A) :
  List.map f (seq 0 n) !! k = Some x <-> (k < n)%nat /\ x = f k.
Proof.
  change (List.map f (seq 0 n)) with (f <$> seq 0 n).
  rewrite list_lookup_fmap. split.
  - destruct (seq 0 n !! k) as [j|] eqn:Hj; [|discriminate].
    apply lookup_seq in Hj as [-> Hk]. simpl. intros [= <-]. done.
  - intros [Hk ->]. by rewrite lookup_seq_lt.
Qed.

(** The promises that the loop of [retrieveDays] collects. *)
Lemma retrieveDays_promises this name nDays w :
  let n := Z.to_nat nDays in
  retrieveDays_loop this name nDays n 0 [] w =
    (Ok (List.map (day_outcome name 0 w) (seq 0 n)), after_days name 0 w n).
Proof. intros n. rewrite retrieveDays_loop_run by lia. reflexivity. Qed.

(** C7: when one of the per-day calls of [retrieve] is rejected, the whole
    call of [retrieveDays] is rejected, with no partial result.  The error
    it throws is the error of one of the rejected calls, the very error
    the store client raised for that request; [retrieve] has logged it and
    [retrieveDays] logs it again last, before throwing it on. *)
Theorem retrieveDays_fail_fast this name nDays w :
  let n := Z.to_nat nDays in
  let promises := List.map (day_outcome name 0 w) (seq 0 n) in
  fst (retrieveDays_loop this name nDays n 0 [] w) = Ok promises /\
  ((exists e0, Throw e0 ∈ promises) ->
   exists e w' k,
     retrieveDays this name (Some nDays) w = (Throw e, w') /\
     (k < n)%nat /\
     promises !! k = Some (Throw e) /\
     faults w (length (sent w) + k)%nat = Some e /\
     retrieve_failed e ∈ console w' /\
     last (console w') = Some (retrieveDays_failed e) /\
     store w' = store w).
Proof.
  intros n promises.
  pose proof (retrieveDays_promises this name nDays w) as Hloop.
  cbv zeta in Hloop. fold n promises in Hloop.
  split; [by rewrite Hloop|].
  intros [e0 H0]. apply list_elem_of_In in H0.
  destruct (Promise_all_rejects promises (after_days name 0 w n) e0 H0)
    as (e & Hall & He).
  apply list_elem_of_In, list_elem_of_lookup in He as [k Hk].
  pose proof Hk as Hk'. apply lookup_map_seq in Hk' as [Hlt Hout].
  assert (Hfault : faults w (length (sent w) + k)%nat = Some e).
  { unfold day_outcome in Hout.
    destruct (faults w (length (sent w) + k)%nat); congruence. }
  exists e, (with_line (retrieveDays_failed e) (after_days name 0 w n)), k.
  split.
  { unfold retrieveDays. simpl default. fold n. unfold bind at 1.
    rewrite Hloop. unfold try_catch, bind. rewrite Hall. reflexivity. }
  repeat split; try done.
  - simpl. apply elem_of_app. left. apply elem_of_app. right.
    apply list_elem_of_In, in_flat_map. exists k. split.
    + apply in_seq. lia.
    + unfold day_line. rewrite Hfault. by left.
  - simpl. apply last_snoc.
Qed.

Lemma day_outcome_answered name w t (n k : nat) :
  (forall j, (j < n)%nat -> clock w (clock_reads w + j)%nat = t) ->
  (forall j, (j < n)%nat -> faults w (length (sent w) + j)%nat = None) ->
  (k < n)%nat ->
  day_outcome name 0 w k = Ok (day_result name t (store w) k).
Proof.
  intros Hclock Hfaults Hk. unfold day_outcome, day_result, day_key, day_asked.
  rewrite (Hfaults k Hk), (Hclock k Hk), Z.add_0_l.
  by rewrite subDays_nat.
Qed.

Lemma day_result_year (t : Date) (n k : nat) :
  DateFns.valid_date t ->
  1 <= year (Nat.iter (n - 1) DateFns.prev_day t) -> year t <= 9999 ->
  (k < n)%nat ->
  DateFns.valid_date (Nat.iter k DateFns.prev_day t) /\
  1 <= year (Nat.iter k DateFns.prev_day t) <= 9999.
Proof.
  intros Hv Hlo Hhi Hk. rewrite <- !subDays_nat in *.
  split; [by apply subDays_valid|].
  pose proof (subDays_year_mono t k (n - 1)) as H1.
  pose proof (subDays_year_mono t 0 k) as H2.
  change (DateFns.subDays t (Z.of_nat 0)) with t in H2. lia.
Qed.

(** C2: for a positive [nDays], with the clock on one day while the loop
    runs and every request answered, [retrieveDays] is fulfilled with
    exactly [nDays] results.  Their dates are today and the [nDays - 1]
    calendar days before it, oldest first: the result at position [i] is
    that of the day [nDays - 1 - i] days ago, and the dates, read with the
    pattern dd/MM/yyyy, go strictly up.  The dates are taken in the years
    1 to 9999, which the pattern prints and reads back. *)
Theorem retrieveDays_chronological this name nDays w t :
  let n := Z.to_nat nDays in
  0 < nDays ->
  DateFns.valid_date t ->
  (forall k, (k < n)%nat -> clock w (clock_reads w + k)%nat = t) ->
  (forall k, (k < n)%nat -> faults w (length (sent w) + k)%nat = None) ->
  1 <= year (Nat.iter (n - 1) DateFns.prev_day t) -> year t <= 9999 ->
  exists rs w',
    retrieveDays this name (Some nDays) w = (Ok rs, w') /\
    length rs = n /\
    rs = List.map (fun i => day_result name t (store w) (n - 1 - i)) (seq 0 n) /\
    List.map date rs =
      List.map (fun i => DateFns.format (Nat.iter (n - 1 - i) DateFns.prev_day t))
               (seq 0 n) /\
    (forall (i j : nat) a b, (i < j)%nat ->
       rs !! i = Some a -> rs !! j = Some b -> reads_earlier (date a) (date b)).
Proof.
  intros n Hn Hv Hclock Hfaults Hlo Hhi.
  pose proof (retrieveDays_promises this name nDays w) as Hloop.
  cbv zeta in Hloop. fold n in Hloop.
  set (R := day_result name t (store w)).
  assert (Hps : List.map (day_outcome name 0 w) (seq 0 n)
                = List.map (fun k => Ok (R k)) (seq 0 n)).
  { apply List.map_ext_in. intros k Hk. apply in_seq in Hk.
    apply (day_outcome_answered name w t n k); [done|done|lia]. }
  rewrite Hps in Hloop.
  destruct (rejections_none R (seq 0 n)) as [Hrej Hful].
  assert (Hparse : forall k ref, (k < n)%nat ->
            DateFns.parse (date (R k)) ref = Some (Nat.iter k DateFns.prev_day t)).
  { intros k ref Hk.
    destruct (day_result_year t n k Hv Hlo Hhi Hk) as [Hvk Hyk].
    unfold R, day_result. simpl. by apply parse_format. }
  assert (Hearlier : forall j k, (j < k)%nat ->
            Date_lt (Nat.iter k DateFns.prev_day t) (Nat.iter j DateFns.prev_day t)).
  { intros j k Hjk. rewrite <- !subDays_nat. by apply subDays_earlier. }
  set (now := clock (after_days name 0 w n) (clock_reads (after_days name 0 w n))).
  assert (Hsort : Array_sort (by_date now) (List.map R (seq 0 n))
                  = List.map (fun i => R (n - 1 - i)%nat) (seq 0 n)).
  { rewrite <- rev_map_seq. apply Array_sort_reverses.
    intros i j x y Hij Hx Hy.
    apply lookup_map_seq in Hx as [Hi ->]. apply lookup_map_seq in Hy as [Hj ->].
    unfold by_date. rewrite !Hparse by done. simpl.
    replace (DateFns.Date_ltb _ _) with true; [lia|].
    symmetry. apply Date_ltb_lt. by apply Hearlier. }
  eexists. eexists. split.
  { unfold retrieveDays. simpl default. fold n. unfold bind at 1.
    rewrite Hloop. unfold try_catch, bind, Promise_all. rewrite Hrej, Hful.
    unfold new_Date. fold now. rewrite Hsort. reflexivity. }
  split; [by rewrite length_map, length_seq|].
  split; [reflexivity|].
  split; [by rewrite List.map_map|].
  intros i j a b Hij Ha Hb.
  apply lookup_map_seq in Ha as [Hi ->]. apply lookup_map_seq in Hb as [Hj ->].
  exists (Nat.iter (n - 1 - i) DateFns.prev_day t),
         (Nat.iter (n - 1 - j) DateFns.prev_day t).
  split; [apply Hparse; lia|]. split; [apply Hparse; lia|].
  apply Hearlier. lia.
Qed.

(* ===================================================================== *)
(** ** The worked example and instances of the statements *)
(* ===================================================================== *)

(** The field of the example event, and what [JSON.stringify] does with
    a property that is undefined. *)
Example page_view_field :
  event_field page_view =
    "{" +:+ JSON.quote "event" +:+ ":{" +:+ JSON.quote "page" +:+ ":"
        +:+ JSON.quote "/" +:+ "}}" /\
  JSON.quote "page" = String Chars.dquote ("page" +:+ String Chars.dquote "") /\
  String.length (event_field page_view) = 22%nat.
Proof. repeat split; vm_compute; reflexivity. Qed.

Example stringify_skips_undefined :
  event_field (JObject [("page", JString "/"); ("country", JUndefined)])
    = event_field page_view /\
  JSON.stringify (JArray [JNumber (-12); JUndefined; JBool true; JNull])
    = "[-12,null,true,null]".
Proof. repeat split; vm_compute; reflexivity. Qed.

(** Days before a first of March and a first of January. *)
Example leap_day_2024 :
  DateFns.format (DateFns.subDays (mkDate 2024 3 1) 1) = "29/02/2024" /\
  DateFns.format (DateFns.subDays (mkDate 2023 3 1) 1) = "28/02/2023" /\
  DateFns.format (DateFns.subDays (mkDate 2024 1 1) 1) = "31/12/2023" /\
  DateFns.format (DateFns.subDays (mkDate 1900 3 1) 1) = "28/02/1900" /\
  DateFns.format (DateFns.subDays (mkDate 2000 3 1) 366) = "01/03/1999".
Proof. repeat split; vm_compute; reflexivity. Qed.

(** The example of the specification: two calls of [track] for the view
    of "/" on 2024-01-01, then [retrieve] for that day, give one event
    entry, whose count is 2. *)
Example track_twice_then_retrieve :
  let this := new_Insyte None in
  let w2 := snd (track this "page-view" page_view false one_view_tracked) in
  fst (retrieve this "page-view" "01/01/2024" w2)
    = Ok (mkResult "01/01/2024" [ {[ event_field page_view := Num 2 ]} ]).
Proof. vm_compute. reflexivity. Qed.

(** On a key that does not exist yet the expiry finds nothing: the first
    call creates the key without a time-to-live, the next call sets it. *)
Example first_track_leaves_no_ttl :
  let this := new_Insyte None in
  let key := ephemeral_key "page-view" "01/01/2024" in
  Redis.ttls (store one_view_tracked) !! key = None /\
  Redis.ttls (store (snd (track this "page-view" page_view false one_view_tracked)))
    !! key = Some 604800.
Proof. split; vm_compute; reflexivity. Qed.

(** Two views of "/" tracked in a row on 2024-01-01: the count goes from
    1 to 2 in the one field of the day's key. *)
Lemma track_twice_same_day_witness :
  let this := new_Insyte None in
  let w := quiet_world new_year_2024 in
  let key := "insyte::page-view::01/01/2024" in
  let field := event_field page_view in
  (0 < retention this /\
   track this "page-view" page_view false w = (Ok tt, one_view_tracked) /\
   today one_view_tracked = today w) /\
  exists w2,
    track this "page-view" page_view false one_view_tracked = (Ok tt, w2) /\
    count key field (store one_view_tracked) = Some 1 /\
    count key field (store w2) = Some 2 /\
    fields key (store w2) = fields key (store one_view_tracked).
Proof.
  split; [split; [reflexivity | split; reflexivity]|].
  destruct (track_twice_same_day (new_Insyte None) "page-view" page_view
              (quiet_world new_year_2024) one_view_tracked)
    as (_ & N & w2 & Hrun & _ & _ & HN & HN1 & _ & Hfields);
    [reflexivity..|].
  exists w2. split; [exact Hrun|].
  assert (HN' : count "insyte::page-view::01/01/2024" (event_field page_view)
                      (store one_view_tracked) = Some 1) by (vm_compute; reflexivity).
  split; [exact HN'|].
  split; [|exact Hfields].
  change (ephemeral_key "page-view" (DateFns.format (today (quiet_world new_year_2024))))
    with "insyte::page-view::01/01/2024" in HN, HN1.
  rewrite HN' in HN. injection HN as <-. exact HN1.
Defined.

(** Three days asked for on 2024-03-01, across the end of a February
    with 29 days. *)
Lemma retrieveDays_chronological_witness :
  let this := new_Insyte None in
  let w := quiet_world (mkDate 2024 3 1) in
  (0 < 3 /\ DateFns.valid_date (mkDate 2024 3 1)) /\
  exists rs w',
    retrieveDays this "page-view" (Some 3) w = (Ok rs, w') /\
    length rs = 3%nat /\
    List.map date rs = ["28/02/2024"; "29/02/2024"; "01/03/2024"] /\
    reads_earlier "28/02/2024" "29/02/2024" /\
    reads_earlier "29/02/2024" "01/03/2024".
Proof.
  assert (Hv : DateFns.valid_date (mkDate 2024 3 1)).
  { split; [simpl; lia | change (1 <= 1 <= 31); lia]. }
  split; [split; [lia | exact Hv]|].
  destruct (retrieveDays_chronological (new_Insyte None) "page-view" 3
              (quiet_world (mkDate 2024 3 1)) (mkDate 2024 3 1))
    as (rs & w' & Hrun & Hlen & Hrs & Hdates & Hup);
    [lia | exact Hv | reflexivity | reflexivity
    | change (1 <= 2024); lia | simpl; lia |].
  exists rs, w'. split; [exact Hrun|]. split; [exact Hlen|].
  split; [exact Hdates|].
  subst rs. split.
  - exact (Hup 0%nat 1%nat
             (day_result "page-view" (mkDate 2024 3 1) Redis.empty 2)
             (day_result "page-view" (mkDate 2024 3 1) Redis.empty 1)
             (Nat.lt_0_1) eq_refl eq_refl).
  - exact (Hup 1%nat 2%nat
             (day_result "page-view" (mkDate 2024 3 1) Redis.empty 1)
             (day_result "page-view" (mkDate 2024 3 1) Redis.empty 0)
             (Nat.lt_1_2) eq_refl eq_refl).
Defined.

(** A tracker built with {retention: 120} refreshes the key of the day
    to 120 seconds. *)
Lemma track_ephemeral_ttl_is_retention_witness :
  let this := new_Insyte (Some (mkOpts 120)) in
  let key := "insyte::page-view::01/01/2024" in
  (0 < retention this /\
   is_Some (Redis.hashes (store one_view_tracked) !! key) /\
   faults one_view_tracked (length (sent one_view_tracked)) = None) /\
  Redis.ttls (store (snd (track this "page-view" page_view false one_view_tracked)))
    !! key = Some 120.
Proof.
  assert (Hkey : is_Some (Redis.hashes (store one_view_tracked)
                            !! "insyte::page-view::01/01/2024")).
  { eexists. vm_compute. reflexivity. }
  split; [split; [reflexivity | split; [exact Hkey | reflexivity]]|].
  destruct (track_ephemeral_ttl_is_retention (new_Insyte (Some (mkOpts 120)))
              "page-view" page_view one_view_tracked) as (_ & Httl & _).
  apply Httl; [reflexivity | exact Hkey | reflexivity].
Defined.

(** Three persisted views: a count of 3, three HINCRBY and no
    time-to-live anywhere. *)
Lemma track_persist_no_expiry_witness :
  let this := new_Insyte None in
  let w := quiet_world new_year_2024 in
  let key := "insyte::page-view" in
  let field := event_field page_view in
  count key field (store w) = Some 0 /\
  exists w',
    track_times 3 this "page-view" page_view true w = (Ok tt, w') /\
    count key field (store w') = Some 3 /\
    Redis.ttls (store w') = Redis.ttls (store w) /\
    sent w' = replicate 3 (Redis.HINCRBY key field 1).
Proof.
  split; [reflexivity|].
  destruct (track_persist_no_expiry (new_Insyte None) "page-view" page_view)
    as [_ Hacc].
  apply (Hacc 3%nat (quiet_world new_year_2024) 0); [reflexivity|].
  intros k Hk. reflexivity.
Defined.

(** Nothing was tracked in the quiet world. *)
Lemma retrieve_nothing_tracked_witness :
  let this := new_Insyte None in
  let w := quiet_world new_year_2024 in
  (faults w (length (sent w)) = None /\
   Redis.hgetall "insyte::page-view::01/01/2024" (store w) = None) /\
  fst (retrieve this "page-view" "01/01/2024" w) = Ok (mkResult "01/01/2024" []).
Proof.
  split; [split; reflexivity|].
  apply (retrieve_nothing_tracked (new_Insyte None) "page-view" "01/01/2024"
                                  (quiet_world new_year_2024));
    [reflexivity | left; reflexivity].
Defined.

(** After one view, [retrieve] shows the field as it is stored, with the
    number 1. *)
Lemma retrieve_exposes_raw_fields_witness :
  let this := new_Insyte None in
  let w := one_view_tracked in
  let key := "insyte::page-view::01/01/2024" in
  faults w (length (sent w)) = None /\
  exists r w',
    retrieve this "page-view" "01/01/2024" w = (Ok r, w') /\
    sent w' = sent w ++ [Redis.HGETALL key] /\
    date r = "01/01/2024" /\
    event r = [ {[ event_field page_view := Num 1 ]} ].
Proof.
  split; [reflexivity|].
  destruct (retrieve_exposes_raw_fields (new_Insyte None) "page-view" "01/01/2024"
              one_view_tracked) as (r & w' & Hrun & Hsent & _ & Hdate & Hev & _);
    [reflexivity|].
  exists r, w'. split; [exact Hrun|]. split; [exact Hsent|].
  split; [exact Hdate|]. rewrite Hev. vm_compute. reflexivity.
Defined.

(** On a quiet store, both requests answered: the call sends the EXPIRE
    and then the HINCRBY, and the store holds what the increment makes of
    what the expiry left. *)
Lemma track_expire_precedes_hincrby_witness :
  let this := new_Insyte None in
  let w := quiet_world new_year_2024 in
  let key := "insyte::page-view::01/01/2024" in
  let field := event_field page_view in
  let w' := snd (track this "page-view" page_view false w) in
  (faults w (length (sent w)) = None /\
   faults w (S (length (sent w))) = None) /\
  sent w' = [Redis.EXPIRE key (retention this); Redis.HINCRBY key field 1] /\
  store w' =
    snd (Redis.hincrby key field 1
           (snd (Redis.expire key (retention this) (store w)))).
Proof.
  split; [split; reflexivity|].
  destruct (track_expire_precedes_hincrby (new_Insyte None) "page-view" page_view
              (quiet_world new_year_2024)) as (_ & _ & H).
  destruct (H eq_refl) as [Hs Hst].
  split; [exact Hs | exact (Hst eq_refl)].
Defined.

(** Of three days, the request for the second fails: the call is
    rejected with that very error. *)
Lemma retrieveDays_fail_fast_witness :
  let this := new_Insyte None in
  let w := second_request_fails in
  Throw timeout_error ∈ List.map (day_outcome "page-view" 0 w) (seq 0 3) /\
  exists e w',
    retrieveDays this "page-view" (Some 3) w = (Throw e, w') /\
    e = timeout_error /\
    retrieve_failed e ∈ console w' /\
    last (console w') = Some (retrieveDays_failed e).
Proof.
  assert (Hin : Throw timeout_error
                  ∈ List.map (day_outcome "page-view" 0 second_request_fails) (seq 0 3)).
  { apply list_elem_of_In. right. left. reflexivity. }
  split; [exact Hin|].
  destruct (retrieveDays_fail_fast (new_Insyte None) "page-view" 3
              second_request_fails) as [_ Hfail].
  destruct Hfail as (e & w' & k & Hrun & Hk & _ & Hfault & Hlog & Hlast & _);
    [by exists timeout_error|].
  exists e, w'. split; [exact Hrun|]. split; [|split; [exact Hlog | exact Hlast]].
  change (Z.to_nat 3) with 3%nat in Hk.
  destruct k as [|[|[|k]]]; try lia; simpl in Hfault; congruence.
Defined.

(** Asking for -2 days. *)
Lemma retrieveDays_nonpositive_witness :
  let this := new_Insyte None in
  let w := one_view_tracked in
  -2 <= 0 /\
  exists w',
    retrieveDays this "page-view" (Some (-2)) w = (Ok [], w') /\
    sent w' = sent w /\ store w' = store w /\ console w' = console w.
Proof.
  split; [lia|].
  apply (retrieveDays_nonpositive (new_Insyte None) "page-view" (-2) one_view_tracked).
  lia.
Defined.

(* ===================================================================== *)
(** ** Further properties of track *)
(* ===================================================================== *)

(** X1: when the EXPIRE of a call with [persist = false] fails at the
    client, the call is rejected with that very error, no HINCRBY is sent,
    the store is as it was, and one line with the error goes to the error
    stream. *)
Theorem track_expire_failure this name event w e :
  faults w (length (sent w)) = Some e ->
  let key := ephemeral_key name (DateFns.format (today w)) in
  exists w',
    track this name event false w = (Throw e, w') /\
    sent w' = sent w ++ [Redis.EXPIRE key (retention this)] /\
    store w' = store w /\
    console w' = console w ++ [track_failed e].
Proof.
  intros Hf key. rewrite track_ephemeral_run. cbv zeta. fold key. rewrite Hf.
  eexists. split; [reflexivity|]. done.
Qed.

Lemma track_expire_failure_witness :
  faults first_request_fails (length (sent first_request_fails)) = Some timeout_error /\
  exists w',
    track (new_Insyte None) "page-view" page_view false first_request_fails
      = (Throw timeout_error, w') /\
    sent w' = [Redis.EXPIRE "insyte::page-view::01/01/2024" 604800] /\
    store w' = Redis.empty /\
    console w' = [track_failed timeout_error].
Proof.
  split; [reflexivity|].
  apply (track_expire_failure (new_Insyte None) "page-view" page_view
                              first_request_fails timeout_error).
  reflexivity.
Defined.

(** X2: when the EXPIRE was answered and the HINCRBY then fails at the
    client, the call is rejected with that error after both requests were
    sent; of the two only the expiry took effect, so with a positive
    retention every hash is as it was while a key that exists has had its
    time-to-live refreshed. *)
Theorem track_increment_failure this name event w e :
  faults w (length (sent w)) = None ->
  faults w (S (length (sent w))) = Some e ->
  let key := ephemeral_key name (DateFns.format (today w)) in
  exists w',
    track this name event false w = (Throw e, w') /\
    sent w' = sent w ++ [Redis.EXPIRE key (retention this);
                         Redis.HINCRBY key (event_field event) 1] /\
    store w' = snd (Redis.expire key (retention this) (store w)) /\
    console w' = console w ++ [track_failed e] /\
    (0 < retention this ->
     Redis.hashes (store w') = Redis.hashes (store w) /\
     (is_Some (Redis.hashes (store w) !! key) ->
      Redis.ttls (store w') !! key = Some (retention this))).
Proof.
  intros Hf1 Hf2 key. rewrite track_ephemeral_run. cbv zeta. fold key.
  rewrite Hf1, Hf2. eexists. split; [reflexivity|]. simpl.
  split; [by rewrite <- app_assoc|]. split; [done|]. split; [done|].
  intros Hpos. split; [by apply expire_positive|].
  intros Hkey. by apply expire_sets_ttl.
Qed.

Lemma track_increment_failure_witness :
  (faults second_request_fails (length (sent second_request_fails)) = None /\
   faults second_request_fails (S (length (sent second_request_fails)))
     = Some timeout_error) /\
  exists w',
    track (new_Insyte None) "page-view" page_view false second_request_fails
      = (Throw timeout_error, w') /\
    length (sent w') = 2%nat /\
    Redis.hashes (store w') = ∅ /\
    console w' = [track_failed timeout_error].
Proof.
  split; [split; reflexivity|].
  destruct (track_increment_failure (new_Insyte None) "page-view" page_view
              second_request_fails timeout_error)
    as (w' & Hrun & Hsent & _ & Hlog & Hpos); [reflexivity..|].
  exists w'. split; [exact Hrun|]. split; [by rewrite Hsent|].
  split; [|exact Hlog].
  destruct Hpos as [Hh _]; [reflexivity|]. exact Hh.
Defined.

(** X3: a call with [persist = true] whose HINCRBY is refused, be it by a
    failure at the client or by the store because the field holds a value
    that is not an integer, is rejected with that error; the store is as
    it was and one line with the error goes to the error stream. *)
Theorem track_persist_rejected this name event w e :
  let key := persisted_key name in
  let field := event_field event in
  faults w (length (sent w)) = Some e \/
  (faults w (length (sent w)) = None /\
   count key field (store w) = None /\ e = Redis.not_an_integer) ->
  exists w',
    track this name event true w = (Throw e, w') /\
    sent w' = sent w ++ [Redis.HINCRBY key field 1] /\
    store w' = store w /\
    console w' = console w ++ [track_failed e].
Proof.
  intros key field Hcause. rewrite track_persist_run. cbv zeta. fold key field.
  destruct Hcause as [Hf | (Hf & Hc & ->)]; rewrite Hf.
  - eexists. split; [reflexivity|]. done.
  - unfold count in Hc. unfold Redis.hincrby.
    destruct (default ∅ (Redis.hashes (store w) !! key) !! field) as [v|];
      [|discriminate].
    rewrite Hc. eexists. split; [reflexivity|]. simpl. by destruct (store w).
Qed.

Lemma track_persist_rejected_witness :
  (faults garbled_count (length (sent garbled_count)) = None /\
   count "insyte::page-view" (event_field page_view) (store garbled_count) = None) /\
  exists w',
    track (new_Insyte None) "page-view" page_view true garbled_count
      = (Throw Redis.not_an_integer, w') /\
    store w' = store garbled_count /\
    console w' = [track_failed Redis.not_an_integer].
Proof.
  assert (Hc : count "insyte::page-view" (event_field page_view) (store garbled_count)
               = None) by (vm_compute; reflexivity).
  split; [split; [reflexivity | exact Hc]|].
  destruct (track_persist_rejected (new_Insyte None) "page-view" page_view
              garbled_count Redis.not_an_integer)
    as (w' & Hrun & _ & Hstore & Hlog).
  { right. split; [reflexivity|]. split; [exact Hc | reflexivity]. }
  exists w'. split; [exact Hrun|]. split; [exact Hstore | exact Hlog].
Defined.

(** The count of a field is read off the hashes alone. *)
Lemma count_hashes (k f : string) (s s' : Redis.Store) :
  Redis.hashes s' = Redis.hashes s -> count k f s' = count k f s.
Proof. intros H. unfold count. by rewrite H. Qed.

(** After a field was written, the count of that field is the number
    written and every other count is what it was. *)
Lemma count_after_put (key field k f : string) (s : Redis.Store) (n : Z) :
  count k f
    (Redis.mkStore
       (<[key := <[field := Z_to_string n]> (default ∅ (Redis.hashes s !! key))]>
          (Redis.hashes s))
       (Redis.ttls s))
  = if decide (k = key /\ f = field) then Some n else count k f s.
Proof.
  destruct (decide (k = key /\ f = field)) as [[-> ->] | Hne];
    [apply count_put|].
  unfold count. simpl.
  destruct (decide (k = key)) as [-> | Hk].
  - rewrite lookup_insert_eq. simpl.
    rewrite lookup_insert_ne by (intros ->; by apply Hne). done.
  - by rewrite lookup_insert_ne.
Qed.

(** What HINCRBY does to the counts: nothing when it fails, and otherwise
    one more in its field and nothing anywhere else. *)
Lemma hincrby_counts (key field k f : string) (s : Redis.Store) (N : Z) :
  count k f s = Some N ->
  exists N', count k f (snd (Redis.hincrby key field 1 s)) = Some N' /\
             N <= N' <= N + 1.
Proof.
  intros Hc.
  destruct (count key field s) as [M|] eqn:HM.
  - rewrite (hincrby_count _ _ _ _ HM). simpl. rewrite count_after_put.
    destruct (decide (k = key /\ f = field)) as [[-> ->] | Hne].
    + exists (M + 1). split; [done|]. rewrite HM in Hc. injection Hc as ->. lia.
    + exists N. split; [done|lia].
  - exists N. split; [|lia].
    unfold count in HM. unfold Redis.hincrby.
    destruct (default ∅ (Redis.hashes s !! key) !! field) as [v|]; [|discriminate].
    by rewrite HM.
Qed.

(** X4: a call of [track] never lowers a count.  With [persist = true],
    or with a positive retention, every count of the store, under any key
    and field, is after the call what it was or one more, whether the call
    was fulfilled or rejected. *)
Theorem track_never_lowers_a_count this name event persist w k f N :
  persist = true \/ 0 < retention this ->
  count k f (store w) = Some N ->
  exists N',
    count k f (store (snd (track this name event persist w))) = Some N' /\
    N <= N' <= N + 1.
Proof.
  intros Hmode Hc. destruct persist.
  - rewrite track_persist_run. cbv zeta.
    destruct (faults w (length (sent w))) as [e|].
    { exists N. split; [done|lia]. }
    destruct (hincrby_counts (persisted_key name) (event_field event) k f
                (store w) N Hc) as (N' & HN' & Hle).
    exists N'. split; [|done].
    by destruct (Redis.hincrby _ _ _ _) as [[n|e] s2].
  - destruct Hmode as [|Hpos]; [discriminate|].
    rewrite track_ephemeral_run. cbv zeta.
    set (key := ephemeral_key name (DateFns.format (today w))).
    destruct (faults w (length (sent w))) as [e|].
    { exists N. split; [done|lia]. }
    pose proof (expire_positive key (retention this) (store w) Hpos) as Hh.
    set (s1 := snd (Redis.expire key (retention this) (store w))) in *.
    assert (Hc1 : count k f s1 = Some N) by (by rewrite (count_hashes _ _ _ _ Hh)).
    destruct (faults w (S (length (sent w)))) as [e|].
    { exists N. split; [done|lia]. }
    destruct (hincrby_counts key (event_field event) k f s1 N Hc1)
      as (N' & HN' & Hle).
    exists N'. split; [|done].
    by destruct (Redis.hincrby _ _ _ _) as [[n|e] s2].
Qed.

Lemma track_never_lowers_a_count_witness :
  let key := "insyte::page-view::01/01/2024" in
  (0 < retention (new_Insyte None) /\
   count key (event_field page_view) (store one_view_tracked) = Some 1) /\
  exists N',
    count key (event_field page_view)
      (store (snd (track (new_Insyte None) "page-view" page_view false
                         one_view_tracked))) = Some N' /\
    1 <= N' <= 1 + 1.
Proof.
  assert (Hc : count "insyte::page-view::01/01/2024" (event_field page_view)
                     (store one_view_tracked) = Some 1) by (vm_compute; reflexivity).
  split; [split; [reflexivity | exact Hc]|].
  apply (track_never_lowers_a_count (new_Insyte None) "page-view" page_view false
           one_view_tracked "insyte::page-view::01/01/2024"
           (event_field page_view) 1);
    [right; reflexivity | exact Hc].
Defined.

(** X5: the first call for a key.  When the key of the day does not exist
    yet and both requests are answered, a call with [persist = false] is
    fulfilled and creates the key with a count of 1, but no time-to-live
    is recorded for it: the expiry came before the key existed, and every
    time-to-live of the store is what it was. *)
Theorem track_first_call_sets_no_ttl this name event w :
  let key := ephemeral_key name (DateFns.format (today w)) in
  let field := event_field event in
  Redis.hashes (store w) !! key = None ->
  faults w (length (sent w)) = None ->
  faults w (S (length (sent w))) = None ->
  exists w',
    track this name event false w = (Ok tt, w') /\
    Redis.hashes (store w') !! key = Some {[ field := Z_to_string 1 ]} /\
    count key field (store w') = Some 1 /\
    Redis.ttls (store w') = Redis.ttls (store w).
Proof.
  intros key field Hkey Hf1 Hf2. rewrite track_ephemeral_run. cbv zeta.
  fold key field. rewrite Hf1, Hf2, (expire_missing _ _ _ Hkey). simpl.
  assert (Hc : count key field (store w) = Some 0).
  { unfold count. by rewrite Hkey. }
  rewrite (hincrby_count _ _ _ _ Hc). eexists. split; [reflexivity|]. simpl.
  rewrite lookup_insert_eq, Hkey. simpl.
  split; [done|]. split; [|done]. fold (0 + 1). apply count_put.
Qed.

Lemma track_first_call_sets_no_ttl_witness :
  let w := quiet_world new_year_2024 in
  let key := "insyte::page-view::01/01/2024" in
  Redis.hashes (store w) !! key = None /\
  exists w',
    track (new_Insyte None) "page-view" page_view false w = (Ok tt, w') /\
    count key (event_field page_view) (store w') = Some 1 /\
    Redis.ttls (store w') !! key = None.
Proof.
  split; [reflexivity|].
  destruct (track_first_call_sets_no_ttl (new_Insyte None) "page-view" page_view
              (quiet_world new_year_2024)) as (w' & Hrun & _ & Hc & Httl);
    [reflexivity..|].
  exists w'. split; [exact Hrun|]. split; [exact Hc|]. by rewrite Httl.
Defined.

(** One call with [persist = false] that both requests of are answered,
    on a field that holds a count, with a positive retention. *)
Lemma track_ephemeral_ok this name event w N :
  let key := ephemeral_key name (DateFns.format (today w)) in
  let field := event_field event in
  0 < retention this ->
  faults w (length (sent w)) = None ->
  faults w (S (length (sent w))) = None ->
  count key field (store w) = Some N ->
  exists w',
    track this name event false w = (Ok tt, w') /\
    count key field (store w') = Some (N + 1) /\
    Redis.hashes (store w') !! key
      = Some (<[field := Z_to_string (N + 1)]>
                (default ∅ (Redis.hashes (store w) !! key))) /\
    (is_Some (Redis.hashes (store w) !! key) ->
     Redis.ttls (store w') !! key = Some (retention this)) /\
    faults w' = faults w /\ clock w' = clock w /\
    clock_reads w' = S (clock_reads w) /\
    length (sent w') = S (S (length (sent w))).
Proof.
  intros key field Hpos Hf1 Hf2 Hc. rewrite track_ephemeral_run. cbv zeta.
  fold key field. rewrite Hf1, Hf2.
  pose proof (expire_positive key (retention this) (store w) Hpos) as Hh.
  pose proof (expire_sets_ttl key (retention this) (store w) Hpos) as Httl.
  set (s1 := snd (Redis.expire key (retention this) (store w))) in *.
  assert (Hc1 : count key field s1 = Some N).
  { unfold count in *. by rewrite Hh. }
  rewrite (hincrby_count _ _ _ _ Hc1). eexists. split; [reflexivity|]. simpl.
  split; [apply count_put|]. rewrite lookup_insert_eq, Hh.
  split; [done|]. split; [done|].
  repeat split; try done. by rewrite !length_app; simpl; lia.
Qed.

Lemma track_times_ephemeral_counts this name event t n : forall w N,
  let key := ephemeral_key name (DateFns.format t) in
  let field := event_field event in
  0 < retention this ->
  (forall k, (k < n)%nat -> clock w (clock_reads w + k)%nat = t) ->
  (forall k, (k < 2 * n)%nat -> faults w (length (sent w) + k)%nat = None) ->
  count key field (store w) = Some N ->
  exists w',
    track_times n this name event false w = (Ok tt, w') /\
    count key field (store w') = Some (N + Z.of_nat n) /\
    ((1 <= n)%nat -> is_Some (Redis.hashes (store w') !! key)) /\
    ((1 <= n)%nat -> is_Some (Redis.hashes (store w) !! key) ->
     Redis.ttls (store w') !! key = Some (retention this)) /\
    ((2 <= n)%nat -> Redis.ttls (store w') !! key = Some (retention this)) /\
    length (sent w') = (length (sent w) + 2 * n)%nat.
Proof.
  induction n as [|n IH]; intros w N key field Hpos Hclock Hfaults Hc.
  - exists w. simpl. rewrite Z.add_0_r.
    repeat split; try done; try lia.
  - assert (Ht : today w = t).
    { unfold today. rewrite <- (Nat.add_0_r (clock_reads w)). apply Hclock. lia. }
    destruct (track_ephemeral_ok this name event w N) as
      (w1 & Hrun & Hc1 & Hh1 & Httl1 & Hfa & Hcl & Hre & Hlen);
      try rewrite Ht; try done.
    { rewrite <- (Nat.add_0_r (length (sent w))). apply Hfaults. lia. }
    { rewrite <- (Nat.add_1_r (length (sent w))). apply Hfaults. lia. }
    rewrite Ht in Hc1, Hh1, Httl1. fold key field in Hc1, Hh1, Httl1.
    destruct (IH w1 (N + 1)) as (w' & Hrest & Hc' & Hex' & Hok' & H2' & Hlen');
      try done.
    { intros k Hk. rewrite Hcl, Hre. simpl. rewrite <- Nat.add_succ_r.
      apply Hclock. lia. }
    { intros k Hk. rewrite Hfa, Hlen.
      replace (S (S (length (sent w))) + k)%nat
        with (length (sent w) + (2 + k))%nat by lia.
      apply Hfaults. lia. }
    fold key field in Hc', Hex', Hok', H2'.
    exists w'. split; [|split; [|split; [|split; [|split]]]].
    + simpl. unfold bind. rewrite Hrun. exact Hrest.
    + rewrite Hc'. f_equal. lia.
    + intros _. destruct n as [|n]; [|apply Hex'; lia].
      simpl in Hrest. injection Hrest as <-. by rewrite Hh1.
    + intros _ Hkey. destruct n as [|n].
      * simpl in Hrest. injection Hrest as <-. by apply Httl1.
      * apply Hok'; [lia|]. by rewrite Hh1.
    + intros Hn. apply Hok'; [lia|]. by rewrite Hh1.
    + rewrite Hlen', Hlen. lia.
Qed.

(** X6: calls of [track] with [persist = false] in a row on one day add
    up.  With a positive retention, the clock on one day and every request
    answered, [n] calls for the same name and event are all fulfilled and
    take the count of the field from [N] to [N + n]; from the second call
    on, the key of the day holds the retention as its time-to-live. *)
Theorem track_times_ephemeral this name event t (n : nat) w N :
  let key := ephemeral_key name (DateFns.format t) in
  let field := event_field event in
  0 < retention this ->
  (forall k, (k < n)%nat -> clock w (clock_reads w + k)%nat = t) ->
  (forall k, (k < 2 * n)%nat -> faults w (length (sent w) + k)%nat = None) ->
  count key field (store w) = Some N ->
  exists w',
    track_times n this name event false w = (Ok tt, w') /\
    count key field (store w') = Some (N + Z.of_nat n) /\
    ((2 <= n)%nat -> Redis.ttls (store w') !! key = Some (retention this)) /\
    length (sent w') = (length (sent w) + 2 * n)%nat.
Proof.
  intros key field Hpos Hclock Hfaults Hc.
  destruct (track_times_ephemeral_counts this name event t n w N
              Hpos Hclock Hfaults Hc) as (w' & Hrun & Hc' & _ & _ & H2 & Hlen).
  exists w'. done.
Qed.

Lemma track_times_ephemeral_witness :
  let w := quiet_world new_year_2024 in
  let key := "insyte::page-view::01/01/2024" in
  (0 < retention (new_Insyte (Some (mkOpts 120))) /\
   count key (event_field page_view) (store w) = Some 0) /\
  exists w',
    track_times 3 (new_Insyte (Some (mkOpts 120))) "page-view" page_view false w
      = (Ok tt, w') /\
    count key (event_field page_view) (store w') = Some 3 /\
    Redis.ttls (store w') !! key = Some 120 /\
    length (sent w') = 6%nat.
Proof.
  split; [split; reflexivity|].
  destruct (track_times_ephemeral (new_Insyte (Some (mkOpts 120))) "page-view"
              page_view new_year_2024 3 (quiet_world new_year_2024) 0)
    as (w' & Hrun & Hc & Httl & Hlen);
    [reflexivity | reflexivity | reflexivity | reflexivity |].
  exists w'. split; [exact Hrun|]. split; [exact Hc|].
  split; [apply Httl; lia | exact Hlen].
Defined.

(** A count held by a hash, of a magnitude up to 2^53, shows as that
    number in what [retrieve] makes of the reply to HGETALL for its key. *)
Lemma entries_list_count (key f : string) (s : Redis.Store)
      (h : gmap string string) (n : Z) :
  Z.abs n <= 2 ^ 53 ->
  Redis.hashes s !! key = Some h -> h !! f = Some (Z_to_string n) ->
  {[ f := Num n ]} ∈ entries (Redis.hgetall key s).
Proof.
  intros Hb Hh Hf. unfold entries. rewrite hgetall_entries, Hh. simpl.
  rewrite <- (of_Z_exact n Hb), <- Number_Z_to_string.
  apply list_elem_of_In, in_map_iff.
  exists (f, Z_to_string n). split; [reflexivity|].
  by apply list_elem_of_In, elem_of_map_to_list.
Qed.

(** X7: what [track] writes, [retrieve] reads.  After a call with
    [persist = false] that took the count of the event's field from [N] to
    [N + 1], with [N + 1] of a magnitude up to 2^53 (the integers that a
    double holds exactly), [retrieve] for the same name and the date of
    that day lists the field with the number [N + 1]: the key that [track]
    builds in two steps is the key that [retrieve] builds in one. *)
Theorem track_then_retrieve this name ev w N :
  let key := ephemeral_key name (DateFns.format (today w)) in
  let field := event_field ev in
  let w1 := snd (track this name ev false w) in
  0 < retention this ->
  (forall k, (k < 3)%nat -> faults w (length (sent w) + k)%nat = None) ->
  count key field (store w) = Some N ->
  Z.abs (N + 1) <= 2 ^ 53 ->
  exists r w2,
    retrieve this name (DateFns.format (today w)) w1 = (Ok r, w2) /\
    date r = DateFns.format (today w) /\
    {[ field := Num (N + 1) ]} ∈ event r /\
    store w2 = store w1.
Proof.
  intros key field w1 Hpos Hfaults Hc Hb.
  destruct (track_ephemeral_ok this name ev w N)
    as (w' & Hrun & _ & Hh & _ & Hfa & _ & _ & Hlen); try done.
  { rewrite <- (Nat.add_0_r (length (sent w))). apply Hfaults. lia. }
  { rewrite <- (Nat.add_1_r (length (sent w))). apply Hfaults. lia. }
  fold key field in Hh. subst w1. rewrite Hrun. simpl snd.
  rewrite retrieve_run. cbv zeta.
  rewrite <- (ephemeral_key_retrieve name (DateFns.format (today w))). fold key.
  rewrite Hfa, Hlen.
  replace (S (S (length (sent w)))) with (length (sent w) + 2)%nat by lia.
  rewrite Hfaults by lia.
  eexists. eexists. split; [reflexivity|]. simpl. split; [done|]. split; [|done].
  apply (entries_list_count _ _ _ _ _ Hb Hh), lookup_insert_eq.
Qed.

Lemma track_then_retrieve_witness :
  let this := new_Insyte None in
  let w := one_view_tracked in
  let w1 := snd (track this "page-view" page_view false w) in
  (0 < retention this /\
   count "insyte::page-view::01/01/2024" (event_field page_view) (store w) = Some 1 /\
   Z.abs (1 + 1) <= 2 ^ 53) /\
  exists r w2,
    retrieve this "page-view" "01/01/2024" w1 = (Ok r, w2) /\
    date r = "01/01/2024" /\
    {[ event_field page_view := Num 2 ]} ∈ event r.
Proof.
  assert (Hc : count "insyte::page-view::01/01/2024" (event_field page_view)
                     (store one_view_tracked) = Some 1) by (vm_compute; reflexivity).
  assert (Hb : Z.abs (1 + 1) <= 2 ^ 53) by (vm_compute; discriminate).
  split; [split; [reflexivity | split; [exact Hc | exact Hb]]|].
  destruct (track_then_retrieve (new_Insyte None) "page-view" page_view
              one_view_tracked 1) as (r & w2 & Hrun & Hdate & Hin & _);
    [reflexivity | reflexivity | exact Hc | exact Hb |].
  exists r, w2. split; [exact Hrun|]. split; [exact Hdate | exact Hin].
Defined.

(* ===================================================================== *)
(** ** Further properties of retrieve and retrieveDays *)
(* ===================================================================== *)

(** X8: when the HGETALL of [retrieve] fails at the client, [retrieve] is
    rejected with that very error; it has sent its one request, left the
    store as it was, and written one line with the error to the error
    stream. *)
Theorem retrieve_failure this name d w e :
  faults w (length (sent w)) = Some e ->
  exists w',
    retrieve this name d w = (Throw e, w') /\
    sent w' = sent w ++ [Redis.HGETALL ("insyte::" +:+ name +:+ "::" +:+ d)] /\
    store w' = store w /\
    console w' = console w ++ [retrieve_failed e].
Proof.
  intros Hf. rewrite retrieve_run. cbv zeta. rewrite Hf.
  eexists. split; [reflexivity|]. done.
Qed.

Lemma retrieve_failure_witness :
  faults first_request_fails (length (sent first_request_fails)) = Some timeout_error /\
  exists w',
    retrieve (new_Insyte None) "page-view" "01/01/2024" first_request_fails
      = (Throw timeout_error, w') /\
    sent w' = [Redis.HGETALL "insyte::page-view::01/01/2024"] /\
    console w' = [retrieve_failed timeout_error].
Proof.
  split; [reflexivity|].
  destruct (retrieve_failure (new_Insyte None) "page-view" "01/01/2024"
              first_request_fails timeout_error)
    as (w' & Hrun & Hsent & _ & Hlog); [reflexivity|].
  exists w'. split; [exact Hrun|]. split; [exact Hsent | exact Hlog].
Defined.

(** X9: [retrieveDays] asks for every day before it looks at any answer.
    Whatever fails, it sends exactly one HGETALL per day, for the days 0,
    1, 2, ... back from the clock's date in that order, it sends nothing
    else, and it never changes the store: a request that fails does not
    keep the later ones from being sent. *)
Theorem retrieveDays_sends_every_request this name nDays w :
  let w' := snd (retrieveDays this name (Some nDays) w) in
  sent w' =
    sent w ++
    List.map (fun k =>
                Redis.HGETALL
                  ("insyte::" +:+ name +:+ "::" +:+
                   DateFns.format
                     (DateFns.subDays (clock w (clock_reads w + k)%nat) (Z.of_nat k))))
             (seq 0 (Z.to_nat nDays)) /\
  store w' = store w.
Proof.
  intros w'. subst w'.
  split; unfold retrieveDays; simpl default; unfold bind at 1;
    rewrite (retrieveDays_promises this name nDays w);
    unfold try_catch, bind, Promise_all;
    destruct (rejections _) as [|e es]; reflexivity.
Qed.

Lemma flat_map_nothing {A B} (f : A -> list B) (l : list A) :
  (forall x, In x l -> f x = []) -> flat_map f l = [].
Proof.
  induction l as [|x l IH]; intros H; [reflexivity|].
  simpl. rewrite (H x) by (by left). apply IH. intros y Hy. apply H. by right.
Qed.

(** [retrieveDays] when every request is answered. *)
Lemma retrieveDays_answered this name nDays w :
  let n := Z.to_nat nDays in
  (forall k, (k < n)%nat -> faults w (length (sent w) + k)%nat = None) ->
  exists rs w',
    retrieveDays this name (Some nDays) w = (Ok rs, w') /\
    Permutation rs
      (List.map (fun k => mkResult (day_asked 0 w k)
                            (entries (Redis.hgetall (day_key name 0 w k) (store w))))
                (seq 0 n)) /\
    length rs = n /\
    console w' = console w.
Proof.
  intros n Hfaults.
  set (R := fun k => mkResult (day_asked 0 w k)
                       (entries (Redis.hgetall (day_key name 0 w k) (store w)))).
  pose proof (retrieveDays_promises this name nDays w) as Hloop.
  cbv zeta in Hloop. fold n in Hloop.
  assert (Hps : List.map (day_outcome name 0 w) (seq 0 n)
                = List.map (fun k => Ok (R k)) (seq 0 n)).
  { apply List.map_ext_in. intros k Hk. apply in_seq in Hk.
    unfold day_outcome. by rewrite Hfaults by lia. }
  assert (Hlines : flat_map (day_line w) (seq 0 n) = []).
  { apply flat_map_nothing. intros k Hk. apply in_seq in Hk.
    unfold day_line. by rewrite Hfaults by lia. }
  rewrite Hps in Hloop.
  destruct (rejections_none R (seq 0 n)) as [Hrej Hful].
  eexists. eexists. split.
  { unfold retrieveDays. simpl default. fold n. unfold bind at 1.
    rewrite Hloop. unfold try_catch, bind, Promise_all. rewrite Hrej, Hful.
    reflexivity. }
  split; [apply Array_sort_perm|].
  split.
  - rewrite (Permutation_length (Array_sort_perm _ _)).
    by rewrite length_map, length_seq.
  - simpl. by rewrite Hlines, app_nil_r.
Qed.

(** X10: when every request is answered, [retrieveDays] is fulfilled with
    a rearrangement of the results of its days: as many results as days,
    each day's result among them, whatever the clock did meanwhile and
    whether or not the dates can be read back; nothing is logged. *)
Theorem retrieveDays_rearranges this name nDays w :
  let n := Z.to_nat nDays in
  (forall k, (k < n)%nat -> faults w (length (sent w) + k)%nat = None) ->
  exists rs w',
    retrieveDays this name (Some nDays) w = (Ok rs, w') /\
    Permutation rs
      (List.map (fun k => mkResult (day_asked 0 w k)
                            (entries (Redis.hgetall (day_key name 0 w k) (store w))))
                (seq 0 n)) /\
    length rs = n /\
    console w' = console w.
Proof. apply retrieveDays_answered. Qed.

Lemma retrieveDays_rearranges_witness :
  let w := midnight_passes in
  exists rs w',
    retrieveDays (new_Insyte None) "page-view" (Some 2) w = (Ok rs, w') /\
    length rs = 2%nat /\
    console w' = [].
Proof.
  destruct (retrieveDays_rearranges (new_Insyte None) "page-view" 2 midnight_passes)
    as (rs & w' & Hrun & _ & Hlen & Hlog); [reflexivity|].
  exists rs, w'. split; [exact Hrun|]. split; [exact Hlen | exact Hlog].
Defined.

(** X11: with [nDays] left out, [retrieveDays] is [retrieve] for today:
    it reads the clock, calls [retrieve] with the date of that reading,
    and is fulfilled with the one result in an array, or rejected with
    the error of that call. *)
Theorem retrieveDays_default_is_today this name w :
  fst (retrieveDays this name None w) =
    match fst (retrieve this name (DateFns.format (today w)) (tick w)) with
    | Ok r => Ok [r]
    | Throw e => Throw e
    end.
Proof.
  rewrite retrieve_run. cbv zeta. simpl.
  destruct (faults w (length (sent w))) as [e|] eqn:Hf;
    unfold retrieveDays; simpl default; unfold bind at 1;
    rewrite (retrieveDays_promises this name 1 w); simpl;
    unfold day_outcome, day_key, day_asked, today;
    rewrite !Nat.add_0_r, Hf; reflexivity.
Qed.

(* ===================================================================== *)
(** ** Keys, fields and dates *)
(* ===================================================================== *)

Lemma length_append (a b : string) :
  String.length (a +:+ b) = (String.length a + String.length b)%nat.
Proof.
  induction a as [|c a IH]; [reflexivity|].
  change (S (String.length (a +:+ b)) = S (String.length a + String.length b)).
  by rewrite IH.
Qed.

(** Two texts that end in tails of one length are equal only part by part. *)
Lemma append_tail_inv (a b s t : string) :
  String.length s = String.length t -> a +:+ s = b +:+ t -> a = b /\ s = t.
Proof.
  intros Hlen. revert b. induction a as [|c a IH]; intros [|c' b] H.
  - done.
  - exfalso. apply (f_equal String.length) in H.
    change ("" +:+ s) with s in H.
    change (String c' b +:+ t) with (String c' (b +:+ t)) in H.
    simpl in H. rewrite length_append in H. lia.
  - exfalso. apply (f_equal String.length) in H.
    change ("" +:+ t) with t in H.
    change (String c a +:+ s) with (String c (a +:+ s)) in H.
    simpl in H. rewrite length_append in H. lia.
  - change (String c (a +:+ s) = String c' (b +:+ t)) in H.
    injection H as -> H. destruct (IH b H) as [-> ->]. done.
Qed.

Lemma format_length d :
  DateFns.valid_date d -> 1 <= year d <= 9999 ->
  String.length (DateFns.format d) = 10%nat.
Proof. intros Hv Hy. by rewrite (format_digits d Hv Hy). Qed.

Lemma format_inj d d' :
  DateFns.valid_date d -> 1 <= year d <= 9999 ->
  DateFns.valid_date d' -> 1 <= year d' <= 9999 ->
  DateFns.format d = DateFns.format d' -> d = d'.
Proof.
  intros Hv Hy Hv' Hy' H.
  pose proof (parse_format d (mkDate 1970 1 1) Hv Hy) as Hp.
  rewrite H, (parse_format d' _ Hv' Hy') in Hp. by injection Hp.
Qed.

(** X12: the keys of the days do not collide.  For days of the calendar
    in the years 1 to 9999, two ephemeral keys are equal only when both
    the names and the days are: the counters of different names or of
    different days are never mixed, whatever characters the names hold. *)
Theorem ephemeral_keys_do_not_collide name name' d d' :
  DateFns.valid_date d -> 1 <= year d <= 9999 ->
  DateFns.valid_date d' -> 1 <= year d' <= 9999 ->
  ephemeral_key name (DateFns.format d) = ephemeral_key name' (DateFns.format d') ->
  name = name' /\ d = d'.
Proof.
  intros Hv Hy Hv' Hy' H. rewrite !ephemeral_key_retrieve in H.
  apply (inj (String.append "insyte::")) in H.
  apply append_tail_inv in H as [Hn Hd].
  - split; [exact Hn|].
    apply (inj (String.append "::")) in Hd. by apply format_inj.
  - rewrite !length_append, !format_length by done. reflexivity.
Qed.

Lemma ephemeral_keys_do_not_collide_witness :
  (DateFns.valid_date new_year_2024 /\
   ephemeral_key "a" (DateFns.format new_year_2024)
     = ephemeral_key "a" (DateFns.format new_year_2024)) /\
  "a" = "a" /\ new_year_2024 = new_year_2024.
Proof.
  assert (Hv : DateFns.valid_date new_year_2024).
  { split; [simpl; lia | change (1 <= 1 <= 31); lia]. }
  split; [split; [exact Hv | reflexivity]|].
  apply (ephemeral_keys_do_not_collide "a" "a" new_year_2024 new_year_2024);
    [exact Hv | simpl; lia | exact Hv | simpl; lia | reflexivity].
Defined.

(** X13: the persisted and the ephemeral records share one key space.  An
    event tracked with [persist = true] under the name <n>::<d> is
    counted under the very key that [retrieve] reads for the name <n> and
    the date <d>, so [retrieve] lists it among the events of that day:
    with the number [N + 1] when the call took the count from [N] to
    [N + 1] and [N + 1] is of a magnitude up to 2^53. *)
Theorem persisted_name_reaches_a_day this n d ev w N :
  let field := event_field ev in
  let w1 := snd (track this (n +:+ "::" +:+ d) ev true w) in
  count (persisted_key (n +:+ "::" +:+ d)) field (store w) = Some N ->
  Z.abs (N + 1) <= 2 ^ 53 ->
  faults w (length (sent w)) = None ->
  faults w (S (length (sent w))) = None ->
  persisted_key (n +:+ "::" +:+ d) = "insyte::" +:+ n +:+ "::" +:+ d /\
  exists r w2,
    retrieve this n d w1 = (Ok r, w2) /\
    {[ field := Num (N + 1) ]} ∈ event r.
Proof.
  intros field w1 Hc Hb Hf1 Hf2. split; [reflexivity|].
  subst w1. rewrite (track_persist_ok this _ ev w N Hc Hf1). simpl snd.
  rewrite retrieve_run. cbv zeta. simpl faults. simpl sent.
  rewrite length_sent_snoc, Hf2.
  eexists. eexists. split; [reflexivity|]. simpl.
  change ("insyte::" +:+ n +:+ "::" +:+ d) with (persisted_key (n +:+ "::" +:+ d)).
  eapply entries_list_count;
    [exact Hb | apply lookup_insert_eq | apply lookup_insert_eq].
Qed.

Lemma persisted_name_reaches_a_day_witness :
  let this := new_Insyte None in
  let w := quiet_world new_year_2024 in
  let w1 := snd (track this "page-view::01/01/2024" page_view true w) in
  (count "insyte::page-view::01/01/2024" (event_field page_view) (store w) = Some 0 /\
   Z.abs (0 + 1) <= 2 ^ 53) /\
  exists r w2,
    retrieve this "page-view" "01/01/2024" w1 = (Ok r, w2) /\
    {[ event_field page_view := Num 1 ]} ∈ event r.
Proof.
  assert (Hb : Z.abs (0 + 1) <= 2 ^ 53) by (vm_compute; discriminate).
  split; [split; [reflexivity | exact Hb]|].
  destruct (persisted_name_reaches_a_day (new_Insyte None) "page-view" "01/01/2024"
              page_view (quiet_world new_year_2024) 0) as [_ H];
    [reflexivity | exact Hb | reflexivity..|].
  exact H.
Defined.

(** The members of an object in its JSON text. *)
Lemma serialize_object (props : list (string * JSValue)) :
  JSON.serialize (JObject props) =
    Some ("{" +:+ JSON.join "," (object_members props) +:+ "}").
Proof.
  cbn [JSON.serialize].
  match goal with
  | |- context [JSON.join "," (?members props)] =>
      assert (Hm : forall ps, members ps = object_members ps)
  end.
  { induction ps as [|[k x] ps IH]; [reflexivity|].
    cbn [object_members flat_map]. fold (object_members ps).
    destruct (JSON.serialize x); simpl; by rewrite IH. }
  by rewrite Hm.
Qed.

(** X14: a property whose value is undefined does not show in the field.
    Two events that differ only by such a property have the same field,
    and [track] does with the one exactly what it does with the other:
    they are counted together. *)
Theorem undefined_property_shares_field (l1 l2 : list (string * JSValue)) (k : string) :
  event_field (JObject (l1 ++ (k, JUndefined) :: l2)) = event_field (JObject (l1 ++ l2)) /\
  forall this name persist w,
    track this name (JObject (l1 ++ (k, JUndefined) :: l2)) persist w
    = track this name (JObject (l1 ++ l2)) persist w.
Proof.
  assert (Hfield : event_field (JObject (l1 ++ (k, JUndefined) :: l2))
                   = event_field (JObject (l1 ++ l2))).
  { unfold event_field, JSON.stringify. rewrite !serialize_object.
    cbn [object_members flat_map]. rewrite !serialize_object.
    unfold object_members. rewrite !flat_map_app. reflexivity. }
  split; [exact Hfield|].
  intros this name persist w. unfold track.
  fold (event_field (JObject (l1 ++ (k, JUndefined) :: l2))).
  fold (event_field (JObject (l1 ++ l2))).
  by rewrite Hfield.
Qed.

(** X15: what [getDate] prints can be read back.  For a clock on a day of
    the calendar, with the day asked for in the years 1 to 9999,
    [getDate(k)] reads the clock once and gives a text of ten characters
    that [parse] reads, with the pattern of the comparison function of
    [retrieveDays], as the day [k] days before the clock's. *)
Theorem getDate_reads_back (k : nat) (w : World) (ref : Date) :
  DateFns.valid_date (today w) ->
  1 <= year (Nat.iter k DateFns.prev_day (today w)) ->
  year (today w) <= 9999 ->
  exists s,
    getDate (Some (Z.of_nat k)) w = (Ok s, tick w) /\
    String.length s = 10%nat /\
    DateFns.parse s ref = Some (Nat.iter k DateFns.prev_day (today w)).
Proof.
  intros Hv Hlo Hhi. rewrite getDate_run, subDays_nat.
  assert (Hlo' : 1 <= year (Nat.iter (S k - 1) DateFns.prev_day (today w)))
    by (by replace (S k - 1)%nat with k by lia).
  destruct (day_result_year (today w) (S k) k Hv Hlo' Hhi (Nat.lt_succ_diag_r k))
    as [Hvk Hyk].
  eexists. split; [reflexivity|]. split.
  - by apply format_length.
  - by apply parse_format.
Qed.

Lemma getDate_reads_back_witness :
  let w := quiet_world (mkDate 2024 3 1) in
  DateFns.valid_date (today w) /\
  exists s,
    getDate (Some 1) w = (Ok s, tick w) /\
    String.length s = 10%nat /\
    DateFns.parse s new_year_2024 = Some (mkDate 2024 2 29).
Proof.
  assert (Hv : DateFns.valid_date (mkDate 2024 3 1)).
  { split; [simpl; lia | change (1 <= 1 <= 31); lia]. }
  split; [exact Hv|].
  apply (getDate_reads_back 1 (quiet_world (mkDate 2024 3 1)) new_year_2024);
    [exact Hv | change (1 <= 2024); lia | simpl; lia].
Defined.

Lemma prev_day_next_day d :
  DateFns.valid_date d -> DateFns.prev_day (DateFns.next_day d) = d.
Proof.
  unfold DateFns.valid_date, DateFns.prev_day, DateFns.next_day. intros [Hm Hd].
  destruct d as [y m dd]. simpl in *.
  destruct (dd <? DateFns.days_in_month y m) eqn:E1; simpl.
  - apply Z.ltb_lt in E1.
    replace (1 <? dd + 1) with true by (symmetry; apply Z.ltb_lt; lia).
    f_equal. lia.
  - apply Z.ltb_ge in E1.
    assert (dd = DateFns.days_in_month y m) as Hdd by lia.
    destruct (m <? 12) eqn:E2; simpl.
    + apply Z.ltb_lt in E2.
      replace (1 <? m + 1) with true by (symmetry; apply Z.ltb_lt; lia).
      replace (m + 1 - 1) with m by lia. by rewrite Hdd.
    + apply Z.ltb_ge in E2. assert (m = 12) as -> by lia.
      change (DateFns.days_in_month y 12) with 31 in Hdd.
      replace (y + 1 - 1) with y by lia. by rewrite Hdd.
Qed.

Lemma Date_ltb_irrefl d : DateFns.Date_ltb d d = false.
Proof.
  unfold DateFns.Date_ltb. by rewrite !Z.ltb_irrefl, !Z.eqb_refl.
Qed.

(** X16: the comparison function of [retrieveDays] never answers 0.  For
    two results of the same date, and whenever the date of the first
    cannot be read, it answers -1 whichever way the two are given: each
    is put before the other. *)
Theorem by_date_ties (now : Date) (a b : InsyteRetrieveResult) :
  date a = date b \/ DateFns.parse (date a) now = None ->
  by_date now a b = -1 /\ by_date now b a = -1.
Proof.
  unfold by_date. intros [Heq | Hnone].
  - rewrite Heq. destruct (DateFns.parse (date b) now) as [d|]; simpl; [|done].
    by rewrite Date_ltb_irrefl.
  - rewrite Hnone. simpl. by destruct (DateFns.parse (date b) now).
Qed.

Lemma by_date_ties_witness :
  let a := mkResult "01/01/2024" [] in
  let b := mkResult "31/02/2024" [] in
  DateFns.parse (date b) new_year_2024 = None /\
  by_date new_year_2024 b a = -1 /\ by_date new_year_2024 a b = -1.
Proof.
  split; [reflexivity|].
  apply (by_date_ties new_year_2024 (mkResult "31/02/2024" [])
                      (mkResult "01/01/2024" [])).
  right. reflexivity.
Defined.

(** X17: [retrieveDays] reads the clock anew in every iteration.  When
    the date moves on to the next day between the first and the second
    reading, [retrieveDays] for two days is fulfilled with two results
    that bear one and the same date, the earlier day, and with none for
    the day the clock has reached. *)
Theorem retrieveDays_across_midnight this name w t :
  DateFns.valid_date t ->
  clock w (clock_reads w) = t ->
  clock w (S (clock_reads w)) = DateFns.next_day t ->
  faults w (length (sent w)) = None ->
  faults w (S (length (sent w))) = None ->
  exists rs w',
    retrieveDays this name (Some 2) w = (Ok rs, w') /\
    List.map date rs = [DateFns.format t; DateFns.format t].
Proof.
  intros Hv Hc0 Hc1 Hf0 Hf1.
  unfold retrieveDays. simpl default. unfold bind at 1.
  rewrite (retrieveDays_promises this name 2 w).
  change (Z.to_nat 2) with 2%nat. cbn [seq List.map].
  unfold day_outcome, day_key, day_asked.
  rewrite !Nat.add_0_r, !Nat.add_1_r, Hf0, Hf1, Hc0, Hc1.
  change (DateFns.subDays t (0 + Z.of_nat 0)) with t.
  change (0 + Z.of_nat 1) with (Z.of_nat 1).
  rewrite subDays_nat.
  change (Nat.iter 1 DateFns.prev_day (DateFns.next_day t))
    with (DateFns.prev_day (DateFns.next_day t)).
  rewrite (prev_day_next_day t Hv).
  unfold try_catch, bind, Promise_all. cbn [rejections fulfilled].
  unfold new_Date, ret. cbn [Array_sort foldr sort_insert].
  eexists. eexists. split; [reflexivity|].
  by destruct (0 <? by_date _ _ _).
Qed.

Lemma retrieveDays_across_midnight_witness :
  (DateFns.valid_date (mkDate 2023 12 31) /\
   clock midnight_passes (S (clock_reads midnight_passes))
     = DateFns.next_day (mkDate 2023 12 31)) /\
  exists rs w',
    retrieveDays (new_Insyte None) "page-view" (Some 2) midnight_passes = (Ok rs, w') /\
    List.map date rs = ["31/12/2023"; "31/12/2023"].
Proof.
  assert (Hv : DateFns.valid_date (mkDate 2023 12 31)).
  { split; [simpl; lia | change (1 <= 31 <= 31); lia]. }
  split; [split; [exact Hv | reflexivity]|].
  apply (retrieveDays_across_midnight (new_Insyte None) "page-view" midnight_passes
           (mkDate 2023 12 31)); [exact Hv | reflexivity..].
Defined.

(** X18: an event tracked today shows in [retrieveDays].  After a call of
    [track] with [persist = false] that took the count of the event's
    field from [N] to [N + 1], a call of [retrieveDays] for one day or
    more whose first reading of the clock falls on the same day is
    fulfilled with a result for that day that lists the field with the
    number [N + 1], for [N + 1] of a magnitude up to 2^53 (the integers
    that a double holds exactly). *)
Theorem track_shows_in_retrieveDays this name ev nDays w N :
  let key := ephemeral_key name (DateFns.format (today w)) in
  let field := event_field ev in
  let w1 := snd (track this name ev false w) in
  0 < retention this ->
  0 < nDays ->
  (forall k, (k < 2 + Z.to_nat nDays)%nat ->
             faults w (length (sent w) + k)%nat = None) ->
  count key field (store w) = Some N ->
  Z.abs (N + 1) <= 2 ^ 53 ->
  clock w (S (clock_reads w)) = today w ->
  exists rs w2 r,
    retrieveDays this name (Some nDays) w1 = (Ok rs, w2) /\
    r ∈ rs /\
    date r = DateFns.format (today w) /\
    {[ field := Num (N + 1) ]} ∈ event r.
Proof.
  intros key field w1 Hpos Hn Hfaults Hc Hb Hday.
  destruct (track_ephemeral_ok this name ev w N)
    as (w' & Hrun & _ & Hh & _ & Hfa & Hcl & Hre & Hlen); try done.
  { rewrite <- (Nat.add_0_r (length (sent w))). apply Hfaults. lia. }
  { rewrite <- (Nat.add_1_r (length (sent w))). apply Hfaults. lia. }
  fold key field in Hh. subst w1. rewrite Hrun. simpl snd.
  destruct (retrieveDays_answered this name nDays w')
    as (rs & w2 & Hdays & Hperm & _ & _).
  { intros k Hk. rewrite Hfa, Hlen.
    replace (S (S (length (sent w))) + k)%nat
      with (length (sent w) + (2 + k))%nat by lia.
    apply Hfaults. lia. }
  assert (Hasked : day_asked 0 w' 0 = DateFns.format (today w)).
  { unfold day_asked. rewrite Hcl, Hre, Nat.add_0_r, Hday. reflexivity. }
  exists rs, w2,
    (mkResult (day_asked 0 w' 0)
              (entries (Redis.hgetall (day_key name 0 w' 0) (store w')))).
  split; [exact Hdays|]. split; [|split].
  - apply list_elem_of_In. apply (Permutation_in _ (Permutation_sym Hperm)).
    apply in_map_iff. exists 0%nat. split; [reflexivity|]. apply in_seq. lia.
  - exact Hasked.
  - simpl. unfold day_key. rewrite Hasked.
    rewrite <- (ephemeral_key_retrieve name (DateFns.format (today w))). fold key.
    apply (entries_list_count _ _ _ _ _ Hb Hh), lookup_insert_eq.
Qed.

Lemma track_shows_in_retrieveDays_witness :
  let this := new_Insyte None in
  let w := one_view_tracked in
  let w1 := snd (track this "page-view" page_view false w) in
  (0 < retention this /\ 0 < 7 /\
   count "insyte::page-view::01/01/2024" (event_field page_view) (store w) = Some 1 /\
   Z.abs (1 + 1) <= 2 ^ 53) /\
  exists rs w2 r,
    retrieveDays this "page-view" (Some 7) w1 = (Ok rs, w2) /\
    r ∈ rs /\
    date r = "01/01/2024" /\
    {[ event_field page_view := Num 2 ]} ∈ event r.
Proof.
  assert (Hc : count "insyte::page-view::01/01/2024" (event_field page_view)
                     (store one_view_tracked) = Some 1) by (vm_compute; reflexivity).
  assert (Hb : Z.abs (1 + 1) <= 2 ^ 53) by (vm_compute; discriminate).
  split; [split; [reflexivity | split; [lia | split; [exact Hc | exact Hb]]]|].
  apply (track_shows_in_retrieveDays (new_Insyte None) "page-view" page_view 7
           one_view_tracked 1);
    [reflexivity | lia | reflexivity | exact Hc | exact Hb | reflexivity].
Defined.
